(** * API type identity: group / version / kind / resource names

    A shallow embedding of [pkg/scheme/group_version.go] and the properties
    its specification states about parsing, rendering and kind resolution.

    Go strings are byte sequences; they are modelled as [string] (a list of
    8-bit [ascii]).  Go's [int] results are modelled in [Z], so that the
    sentinel [-1] of [strings.Index] is kept as the code tests it.  Slicing
    and indexing can panic in Go; they are written in a small panic monad,
    and the functions that slice or index live in that monad. *)

From Stdlib Require Import String Ascii List ZArith Lia Bool.
Import ListNotations.

Local Open Scope string_scope.
Local Open Scope Z_scope.

(** ** The runtime: panics, slices, indexing *)

Module Go.

(** A computation that either yields a value or panics at run time. *)
Inductive M (A : Type) : Type :=
| Ret (a : A)
| Panic.
Arguments Ret {A} a.
Arguments Panic {A}.

Definition bind {A B : Type} (m : M A) (k : A -> M B) : M B :=
  match m with
  | Ret a => k a
  | Panic => Panic
  end.

(** [len(s)] *)
Definition len (s : string) : Z := Z.of_nat (String.length s).

(** [s[lo:hi]]: panics unless [0 <= lo <= hi <= len(s)]. *)
Definition slice (s : string) (lo hi : Z) : M string :=
  if (0 <=? lo) && (lo <=? hi) && (hi <=? len s)
  then Ret (substring (Z.to_nat lo) (Z.to_nat (hi - lo)) s)
  else Panic.

(** [s[:hi]] and [s[lo:]] *)
Definition slice_to (s : string) (hi : Z) : M string := slice s 0 hi.
Definition slice_from (s : string) (lo : Z) : M string := slice s lo (len s).

(** [a[i]] on a slice of values: panics when [i] is out of range. *)
Definition at_index {A : Type} (a : list A) (i : Z) : M A :=
  if (0 <=? i) && (i <? Z.of_nat (List.length a))
  then match nth_error a (Z.to_nat i) with
       | Some x => Ret x
       | None => Panic
       end
  else Panic.

(** The [error] interface, as far as this package builds errors: a
    message made by [fmt.Errorf]. *)
Inductive error : Type :=
| Errorf (msg : string).

End Go.

Import Go.

Notation "x <- m ;; k" := (Go.bind m (fun x => k))
  (at level 61, m at next level, right associativity).

(** ** The parts of package [strings] the code calls

    Every call in the source passes a one-byte separator, the case Go's
    own implementation dispatches to its byte routines; the separator is
    therefore an [ascii]. *)

Module Strings.

(** [strings.Count(s, sep)] *)
Fixpoint Count (s : string) (sep : ascii) : Z :=
  match s with
  | EmptyString => 0
  | String c r => (if Ascii.eqb c sep then 1 else 0) + Count r sep
  end.

(** The scanning loop of [strings.Index]: [i] is the position of the
    first byte of [s] in the whole string. *)
Fixpoint IndexFrom (s : string) (sep : ascii) (i : Z) : Z :=
  match s with
  | EmptyString => -1
  | String c r => if Ascii.eqb c sep then i else IndexFrom r sep (i + 1)
  end.

(** [strings.Index(s, sep)] *)
Definition Index (s : string) (sep : ascii) : Z := IndexFrom s sep 0.

(** The loop of [genSplit]: at most [k] more cuts, then the remainder. *)
Fixpoint splitLoop (k : nat) (s : string) (sep : ascii) : M (list string) :=
  match k with
  | O => Ret [s]
  | S k' =>
      let m := Index s sep in
      if m <? 0 then Ret [s]
      else
        hd <- slice_to s m ;;
        tl <- slice_from s (m + 1) ;;
        rest <- splitLoop k' tl sep ;;
        Ret (hd :: rest)
  end.

(** [strings.SplitN(s, sep, n)] *)
Definition SplitN (s : string) (sep : ascii) (n : Z) : M (list string) :=
  if n =? 0 then Ret []
  else
    let n1 := if n <? 0 then Count s sep + 1 else n in
    let n2 := if n1 >? len s + 1 then len s + 1 else n1 in
    splitLoop (Z.to_nat (n2 - 1)) s sep.

(** [strings.Join(elems, sep)]: the first element, then each further
    element written after a separator. *)
Definition Join (elems : list string) (sep : string) : string :=
  match elems with
  | [] => ""
  | [e] => e
  | e :: rest => fold_left (fun b s => b ++ sep ++ s) rest e
  end.

(** The replacement loop of [strings.Replace]: [n] replacements are still
to be made, [b] is the builder, [start] the position reached in [s]. *)
Fixpoint replaceLoop (n : nat) (s : string) (old : ascii) (new : string)
  (b : string) (start : Z) : M string :=
  match n with
  | O =>
      tl <- slice_from s start ;;
      Ret (b ++ tl)
  | S n' =>
      rest <- slice_from s start ;;
      let j := start + Index rest old in
      chunk <- slice s start j ;;
      replaceLoop n' s old new (b ++ chunk ++ new) (j + 1)
  end.

(** [strings.Replace(s, old, new, n)] for a one-byte [old]. *)
Definition Replace (s : string) (old : ascii) (new : string) (n : Z)
  : M string :=
  if String.eqb (String old "") new || (n =? 0) then Ret s
  else
    let m := Count s old in
    if m =? 0 then Ret s
    else
      let n' := if (n <? 0) || (m <? n) then m else n in
      replaceLoop (Z.to_nat n') s old new "" 0.

(** [strings.ReplaceAll(s, old, new)] *)
Definition ReplaceAll (s : string) (old : ascii) (new : string) : M string :=
  Replace s old new (-1).

End Strings.

(** ** Identity value types *)

Record GroupResource : Type := mkGroupResource
  { gr_Group : string; gr_Resource : string }.

Record GroupKind : Type := mkGroupKind
  { gk_Group : string; gk_Kind : string }.

Record GroupVersion : Type := mkGroupVersion
  { gv_Group : string; gv_Version : string }.

Record GroupVersionResource : Type := mkGroupVersionResource
  { gvr_Group : string; gvr_Version : string; gvr_Resource : string }.

Record GroupVersionKind : Type := mkGroupVersionKind
  { gvk_Group : string; gvk_Version : string; gvk_Kind : string }.

Definition GroupVersions : Type := list GroupVersion.

(** Zero values of the struct types. *)
Definition zeroGroupVersion : GroupVersion := mkGroupVersion "" "".
Definition zeroGroupVersionKind : GroupVersionKind := mkGroupVersionKind "" "" "".

(** Go's [==] on [GroupVersionKind]: field by field. *)
Definition GroupVersionKind_eqb (a b : GroupVersionKind) : bool :=
  String.eqb (gvk_Group a) (gvk_Group b)
  && String.eqb (gvk_Version a) (gvk_Version b)
  && String.eqb (gvk_Kind a) (gvk_Kind b).

(** ** Parsing of dotted names *)

Definition dot : ascii := "."%char.
Definition slash : ascii := "/"%char.
Definition comma : ascii := ","%char.

Definition ParseGroupKind (gk : string) : M GroupKind :=
  let i := Strings.Index gk dot in
  if i =? -1 then Ret (mkGroupKind "" gk)
  else
    g <- slice_from gk (i + 1) ;;
    k <- slice_to gk i ;;
    Ret (mkGroupKind g k).

Definition ParseGroupResource (gr : string) : M GroupResource :=
  let i := Strings.Index gr dot in
  if i >=? 0 then
    g <- slice_from gr (i + 1) ;;
    r <- slice_to gr i ;;
    Ret (mkGroupResource g r)
  else Ret (mkGroupResource "" gr).

Definition ParseResourceArg (arg : string)
  : M (option GroupVersionResource * GroupResource) :=
  gvr <- (if Strings.Count arg dot >=? 2 then
            s <- Strings.SplitN arg dot 3 ;;
            s2 <- at_index s 2 ;;
            s1 <- at_index s 1 ;;
            s0 <- at_index s 0 ;;
            Ret (Some (mkGroupVersionResource s2 s1 s0))
          else Ret None) ;;
  gr <- ParseGroupResource arg ;;
  Ret (gvr, gr).

Definition ParseKindArg (arg : string)
  : M (option GroupVersionKind * GroupKind) :=
  gvk <- (if Strings.Count arg dot >=? 2 then
            s <- Strings.SplitN arg dot 3 ;;
            s2 <- at_index s 2 ;;
            s1 <- at_index s 1 ;;
            s0 <- at_index s 0 ;;
            Ret (Some (mkGroupVersionKind s2 s1 s0))
          else Ret None) ;;
  gk <- ParseGroupKind arg ;;
  Ret (gvk, gk).

(** ** GroupVersion *)

Definition GroupVersion_Empty (gv : GroupVersion) : bool :=
  (len (gv_Group gv) =? 0) && (len (gv_Version gv) =? 0).

Definition GroupVersion_String (gv : GroupVersion) : string :=
  if len (gv_Group gv) >? 0
  then (gv_Group gv ++ "/" ++ gv_Version gv)%string
  else gv_Version gv.

Definition GroupVersion_Identifier (gv : GroupVersion) : string :=
  GroupVersion_String gv.

Definition GroupVersion_WithKind (gv : GroupVersion) (kind : string)
  : GroupVersionKind :=
  mkGroupVersionKind (gv_Group gv) (gv_Version gv) kind.

(** The message [fmt.Errorf("unexpected GroupVersion string: %v", gv)]
    builds; the specification calls this error MalformedIdentity. *)
Definition MalformedIdentity (gv : string) : error :=
  Errorf ("unexpected GroupVersion string: " ++ gv).

Definition ParseGroupVersion (gv : string) : M (GroupVersion * option error) :=
  if (len gv =? 0) || String.eqb gv "/" then Ret (zeroGroupVersion, None)
  else
    match Strings.Count gv slash with
    | 0 => Ret (mkGroupVersion "" gv, None)
    | 1 =>
        let i := Strings.Index gv slash in
        g <- slice_to gv i ;;
        v <- slice_from gv (i + 1) ;;
        Ret (mkGroupVersion g v, None)
    | _ => Ret (zeroGroupVersion, Some (MalformedIdentity gv))
    end.

(** ** Preference-based kind resolution *)

(** First loop of [GroupVersion.KindForGroupVersionKinds]: [Some] is the
    early return, [None] is falling out of the loop. *)
Fixpoint exactPass (gv : GroupVersion) (kinds : list GroupVersionKind)
  : option GroupVersionKind :=
  match kinds with
  | [] => None
  | gvk :: rest =>
      if String.eqb (gvk_Group gvk) (gv_Group gv)
         && String.eqb (gvk_Version gvk) (gv_Version gv)
      then Some gvk
      else exactPass gv rest
  end.

(** Second loop of [GroupVersion.KindForGroupVersionKinds]. *)
Fixpoint groupPass (gv : GroupVersion) (kinds : list GroupVersionKind)
  : option GroupVersionKind :=
  match kinds with
  | [] => None
  | gvk :: rest =>
      if String.eqb (gvk_Group gvk) (gv_Group gv)
      then Some (GroupVersion_WithKind gv (gvk_Kind gvk))
      else groupPass gv rest
  end.

Definition GroupVersion_KindForGroupVersionKinds
  (gv : GroupVersion) (kinds : list GroupVersionKind)
  : GroupVersionKind * bool :=
  match exactPass gv kinds with
  | Some target => (target, true)
  | None =>
      match groupPass gv kinds with
      | Some target => (target, true)
      | None => (zeroGroupVersionKind, false)
      end
  end.

(** Inner loop of [bestMatch]: the first [k] of [kinds] with [k == gvk]. *)
Fixpoint scanKinds (gvk : GroupVersionKind) (kinds : list GroupVersionKind)
  : option GroupVersionKind :=
  match kinds with
  | [] => None
  | k :: rest =>
      if GroupVersionKind_eqb k gvk then Some k else scanKinds gvk rest
  end.

(** Outer loop of [bestMatch]. *)
Fixpoint scanTargets (kinds targets : list GroupVersionKind)
  : option GroupVersionKind :=
  match targets with
  | [] => None
  | gvk :: rest =>
      match scanKinds gvk kinds with
      | Some k => Some k
      | None => scanTargets kinds rest
      end
  end.

Definition bestMatch (kinds targets : list GroupVersionKind)
  : M GroupVersionKind :=
  match scanTargets kinds targets with
  | Some k => Ret k
  | None => at_index targets 0
  end.

(** The collecting loop of [GroupVersions.KindForGroupVersionKinds]:
    [targets] grows by [append] at each successful probe. *)
Definition collectTargets (gvs : GroupVersions) (kinds : list GroupVersionKind)
  : list GroupVersionKind :=
  fold_left
    (fun targets gv =>
       let '(target, ok) := GroupVersion_KindForGroupVersionKinds gv kinds in
       if negb ok then targets else (targets ++ [target])%list)
    gvs [].

Definition GroupVersions_KindForGroupVersionKinds
  (gvs : GroupVersions) (kinds : list GroupVersionKind)
  : M (GroupVersionKind * bool) :=
  let targets := collectTargets gvs kinds in
  if Z.of_nat (List.length targets) =? 1 then
    t <- at_index targets 0 ;;
    Ret (t, true)
  else if Z.of_nat (List.length targets) >? 1 then
    t <- bestMatch kinds targets ;;
    Ret (t, true)
  else Ret (zeroGroupVersionKind, false).

(** [GroupVersions.Identifier]: render each element, join, bracket.
    [fmt.Sprintf("[%s]", x)] is [x] between the two brackets. *)
Definition GroupVersions_Identifier (gvs : GroupVersions) : string :=
  let groupVersions :=
    fold_left (fun acc gv => (acc ++ [GroupVersion_String gv])%list) gvs [] in
  "[" ++ Strings.Join groupVersions "," ++ "]".

(** ** The serialization-tag string pair *)

Definition GroupVersionKind_Empty (gvk : GroupVersionKind) : bool :=
  (len (gvk_Group gvk) =? 0) && (len (gvk_Version gvk) =? 0)
  && (len (gvk_Kind gvk) =? 0).

Definition GroupVersionKind_GroupVersion (gvk : GroupVersionKind)
  : GroupVersion :=
  mkGroupVersion (gvk_Group gvk) (gvk_Version gvk).

Definition ToAPIVersionAndKind (gvk : GroupVersionKind) : string * string :=
  if GroupVersionKind_Empty gvk then ("", "")
  else (GroupVersion_String (GroupVersionKind_GroupVersion gvk), gvk_Kind gvk).

Definition FromAPIVersionAndKind (apiVersion kind : string)
  : M GroupVersionKind :=
  r <- ParseGroupVersion apiVersion ;;
  match r with
  | (gv, None) => Ret (mkGroupVersionKind (gv_Group gv) (gv_Version gv) kind)
  | (_, Some _) => Ret (mkGroupVersionKind "" "" kind)
  end.

(** ** The remaining methods of the identity types *)

Definition GroupResource_Empty (gr : GroupResource) : bool :=
  (len (gr_Group gr) =? 0) && (len (gr_Resource gr) =? 0).

Definition GroupResource_String (gr : GroupResource) : string :=
  if len (gr_Group gr) =? 0 then gr_Resource gr
  else gr_Resource gr ++ "." ++ gr_Group gr.

Definition GroupVersionResource_Empty (gvr : GroupVersionResource) : bool :=
  (len (gvr_Group gvr) =? 0) && (len (gvr_Version gvr) =? 0)
  && (len (gvr_Resource gvr) =? 0).

Definition GroupVersionResource_GroupResource (gvr : GroupVersionResource)
  : GroupResource :=
  mkGroupResource (gvr_Group gvr) (gvr_Resource gvr).

Definition GroupVersionResource_GroupVersion (gvr : GroupVersionResource)
  : GroupVersion :=
  mkGroupVersion (gvr_Group gvr) (gvr_Version gvr).

Definition GroupVersionResource_String (gvr : GroupVersionResource) : string :=
  Strings.Join
    [gvr_Group gvr; "/"; gvr_Version gvr; ", Resource="; gvr_Resource gvr] "".

Definition GroupKind_Empty (gk : GroupKind) : bool :=
  (len (gk_Group gk) =? 0) && (len (gk_Kind gk) =? 0).

Definition GroupKind_String (gk : GroupKind) : string :=
  if len (gk_Group gk) =? 0 then gk_Kind gk
  else gk_Kind gk ++ "." ++ gk_Group gk.

Definition GroupVersionKind_String (gvk : GroupVersionKind) : string :=
  gvk_Group gvk ++ "/" ++ gvk_Version gvk ++ ", Kind=" ++ gvk_Kind gvk.

(** ** The serialization-tag carrier

    Modelled from the spec: the struct declaration of [TypeMeta] is not
    among the sources; the carrier "stores a single group-version-kind as
    two strings (api-version, kind)", the two fields its methods read and
    write. *)
Record TypeMeta : Type := mkTypeMeta
  { APIVersion : string; Kind : string }.

(** [obj.SetGroupVersionKind(gvk)]: the object after the call. *)
Definition TypeMeta_SetGroupVersionKind (obj : TypeMeta) (gvk : GroupVersionKind)
  : TypeMeta :=
  let '(apiVersion, kind) := ToAPIVersionAndKind gvk in
  mkTypeMeta apiVersion kind.

Definition TypeMeta_GroupVersionKind (obj : TypeMeta) : M GroupVersionKind :=
  FromAPIVersionAndKind (APIVersion obj) (Kind obj).

(** ** Flag names *)

Definition underscore : ascii := "_"%char.
Definition hyphen : ascii := "-"%char.

(** [normalize] of package [globalflag]. *)
Definition normalize (s : string) : M string :=
  Strings.ReplaceAll s underscore "-".

(** ** The operations as the specification words them

    These follow the specification's sentences, not the code; the theorems
    below compare them with the definitions above. *)

Definition GroupVersionKind_eq_dec (a b : GroupVersionKind) : {a = b} + {a <> b}.
Proof. decide equality; apply string_dec. Defined.

(** Single-group-version probe: the first candidate equal in group and
    version; failing that, the first candidate equal in group, rebuilt with
    the preferred version; failing that, not found. *)
Definition spec_probe (gv : GroupVersion) (kinds : list GroupVersionKind)
  : GroupVersionKind * bool :=
  match find (fun k => String.eqb (gvk_Group k) (gv_Group gv)
                       && String.eqb (gvk_Version k) (gv_Version gv)) kinds with
  | Some k => (k, true)
  | None =>
      match find (fun k => String.eqb (gvk_Group k) (gv_Group gv)) kinds with
      | Some k => (GroupVersion_WithKind gv (gvk_Kind k), true)
      | None => (zeroGroupVersionKind, false)
      end
  end.

(** Every successful probe result, in preference order. *)
Definition spec_collected (gvs : GroupVersions) (kinds : list GroupVersionKind)
  : list GroupVersionKind :=
  flat_map
    (fun gv =>
       let r := GroupVersion_KindForGroupVersionKinds gv kinds in
       if snd r then [fst r] else [])
    gvs.

(** A collected result that occurs, all three fields equal, in [kinds]. *)
Definition spec_present (kinds : list GroupVersionKind) (t : GroupVersionKind)
  : bool :=
  if in_dec GroupVersionKind_eq_dec t kinds then true else false.

Definition spec_resolve (gvs : GroupVersions) (kinds : list GroupVersionKind)
  : GroupVersionKind * bool :=
  match spec_collected gvs kinds with
  | [] => (zeroGroupVersionKind, false)
  | [only] => (only, true)
  | (first :: _) as collected =>
      (match find (spec_present kinds) collected with
       | Some t => t
       | None => first
       end, true)
  end.

(** [[gv1,gv2,...]]: the renderings, comma-joined, between brackets. *)
Definition spec_Identifier (gvs : GroupVersions) : string :=
  "[" ++ String.concat "," (map GroupVersion_String gvs) ++ "]".

(** The group-versions on which [GroupVersions.Identifier] is a key: no
    element is empty, no field holds a comma, no version holds a slash. *)
Definition keyable (gv : GroupVersion) : Prop :=
  GroupVersion_Empty gv = false
  /\ Strings.Count (gv_Group gv) comma = 0
  /\ Strings.Count (gv_Version gv) comma = 0
  /\ Strings.Count (gv_Version gv) slash = 0.

(** A string that can stand between commas: no comma inside, not empty. *)
Definition field (s : string) : Prop := Strings.Count s comma = 0 /\ s <> "".

(** Every byte equal to [old] replaced by [new], the others kept. *)
Fixpoint replaceBytes (s : string) (old : ascii) (new : string) : string :=
  match s with
  | EmptyString => ""
  | String c r =>
      (if Ascii.eqb c old then new else String c "") ++ replaceBytes r old new
  end.

(** The precise form seen as a kind, the coarse form seen as a kind. *)
Definition asKind (x : GroupVersionResource) : GroupVersionKind :=
  mkGroupVersionKind (gvr_Group x) (gvr_Version x) (gvr_Resource x).

Definition asGroupKind (x : GroupResource) : GroupKind :=
  mkGroupKind (gr_Group x) (gr_Resource x).

(** ** Concrete runs, as the specification lists them *)

Example ParseResourceArg_pods :
  ParseResourceArg "pods" = Ret (None, mkGroupResource "" "pods").
Proof. reflexivity. Qed.

Example ParseResourceArg_pods_v1_apps :
  ParseResourceArg "pods.v1.apps"
  = Ret (Some (mkGroupVersionResource "apps" "v1" "pods"),
         mkGroupResource "v1.apps" "pods").
Proof. reflexivity. Qed.

Example ParseResourceArg_pods_apps :
  ParseResourceArg "pods.apps" = Ret (None, mkGroupResource "apps" "pods").
Proof. reflexivity. Qed.

Example resolve_first_preference :
  GroupVersions_KindForGroupVersionKinds
    [mkGroupVersion "g1" "v2"; mkGroupVersion "g1" "v1"]
    [mkGroupVersionKind "g1" "v1" "K"; mkGroupVersionKind "g1" "v2" "K"]
  = Ret (mkGroupVersionKind "g1" "v2" "K", true).
Proof. reflexivity. Qed.

Example resolve_substituted_version :
  GroupVersions_KindForGroupVersionKinds
    [mkGroupVersion "g1" "v3"] [mkGroupVersionKind "g1" "v1" "K"]
  = Ret (mkGroupVersionKind "g1" "v3" "K", true).
Proof. reflexivity. Qed.

Example resolve_disjoint_group :
  GroupVersions_KindForGroupVersionKinds
    [mkGroupVersion "g2" "v1"] [mkGroupVersionKind "g1" "v1" "K"]
  = Ret (zeroGroupVersionKind, false).
Proof. reflexivity. Qed.

Example ParseGroupVersion_three_parts :
  ParseGroupVersion "a/b/c"
  = Ret (zeroGroupVersion, Some (MalformedIdentity "a/b/c")).
Proof. reflexivity. Qed.

(** ** Facts about strings, counting, searching and slicing *)

Module StringFacts.
Import Strings.

Lemma app_nil_r (s : string) : s ++ "" = s.
Proof. induction s as [|a s IH]; simpl; [reflexivity | now rewrite IH]. Qed.

Lemma app_assoc (a b c : string) : (a ++ b) ++ c = a ++ (b ++ c).
Proof. induction a as [|x a IH]; simpl; [reflexivity | now rewrite IH]. Qed.

Lemma app_inv_head (a b c : string) : a ++ b = a ++ c -> b = c.
Proof.
  induction a as [|x a IH]; simpl; intros H; [exact H|].
  injection H as H. now apply IH.
Qed.

Lemma length_app (a b : string) :
  String.length (a ++ b) = (String.length a + String.length b)%nat.
Proof. induction a as [|x a IH]; simpl; [reflexivity | now rewrite IH]. Qed.

Lemma len_app (a b : string) : len (a ++ b) = len a + len b.
Proof. unfold len. rewrite length_app. lia. Qed.

Lemma len_nonneg (s : string) : 0 <= len s.
Proof. unfold len. lia. Qed.

Lemma len_String (c : ascii) (s : string) : len (String c s) = 1 + len s.
Proof. unfold len. simpl String.length. lia. Qed.

Lemma len_zero (s : string) : len s = 0 -> s = "".
Proof. destruct s; [reflexivity|]. rewrite len_String. pose proof (len_nonneg s). lia. Qed.

Lemma Count_nonneg (s : string) (c : ascii) : 0 <= Count s c.
Proof.
  induction s as [|a s IH]; simpl; [lia|].
  destruct (Ascii.eqb a c); lia.
Qed.

Lemma Count_app (a b : string) (c : ascii) :
  Count (a ++ b) c = Count a c + Count b c.
Proof. induction a as [|x a IH]; simpl; [reflexivity | rewrite IH; lia]. Qed.

Lemma Count_String_same (c : ascii) (s : string) :
  Count (String c s) c = 1 + Count s c.
Proof. simpl. now rewrite Ascii.eqb_refl. Qed.

Lemma substring_prefix (pre post : string) :
  substring 0 (String.length pre) (pre ++ post) = pre.
Proof.
  induction pre as [|x pre IH]; simpl.
  - now destruct post.
  - now rewrite IH.
Qed.

Lemma substring_all (s : string) : substring 0 (String.length s) s = s.
Proof.
  rewrite <- (app_nil_r s) at 2. apply substring_prefix.
Qed.

Lemma substring_skip (pre post : string) (m : nat) :
  substring (String.length pre) m (pre ++ post) = substring 0 m post.
Proof. induction pre as [|x pre IH]; simpl; [reflexivity | exact IH]. Qed.

Lemma slice_to_app (pre post : string) :
  slice_to (pre ++ post) (len pre) = Ret pre.
Proof.
  unfold slice_to, slice.
  assert (G : (0 <=? 0) && (0 <=? len pre) && (len pre <=? len (pre ++ post)) = true).
  { rewrite !andb_true_iff, !Z.leb_le, len_app.
    pose proof (len_nonneg pre). pose proof (len_nonneg post). lia. }
  rewrite G. f_equal.
  replace (Z.to_nat 0) with 0%nat by reflexivity.
  replace (Z.to_nat (len pre - 0)) with (String.length pre) by (unfold len; lia).
  apply substring_prefix.
Qed.

Lemma slice_from_app (pre post : string) :
  slice_from (pre ++ post) (len pre) = Ret post.
Proof.
  unfold slice_from, slice.
  assert (G : (0 <=? len pre) && (len pre <=? len (pre ++ post))
              && (len (pre ++ post) <=? len (pre ++ post)) = true).
  { rewrite !andb_true_iff, !Z.leb_le, len_app.
    pose proof (len_nonneg pre). pose proof (len_nonneg post). lia. }
  rewrite G. f_equal.
  replace (Z.to_nat (len pre)) with (String.length pre) by (unfold len; lia).
  replace (Z.to_nat (len (pre ++ post) - len pre)) with (String.length post)
    by (rewrite len_app; unfold len; lia).
  rewrite substring_skip. apply substring_all.
Qed.

Lemma IndexFrom_absent (s : string) (c : ascii) (i : Z) :
  Count s c = 0 -> IndexFrom s c i = -1.
Proof.
  revert i. induction s as [|a s IH]; simpl; intros i H; [reflexivity|].
  pose proof (Count_nonneg s c).
  destruct (Ascii.eqb a c); [lia|]. apply IH. lia.
Qed.

Lemma IndexFrom_first (pre post : string) (c : ascii) (i : Z) :
  Count pre c = 0 -> IndexFrom (pre ++ String c post) c i = i + len pre.
Proof.
  revert i. induction pre as [|a pre IH]; simpl; intros i H.
  - rewrite Ascii.eqb_refl. unfold len. simpl. lia.
  - pose proof (Count_nonneg pre c).
    destruct (Ascii.eqb a c); [lia|].
    rewrite IH by lia. rewrite len_String. lia.
Qed.

(** A string in which [c] occurs is cut at the first occurrence. *)
Lemma Count_pos_split (s : string) (c : ascii) :
  0 < Count s c ->
  exists pre post, s = pre ++ String c post /\ Count pre c = 0.
Proof.
  induction s as [|a s IH]; simpl; intros H; [lia|].
  destruct (Ascii.eqb_spec a c) as [->|Hne].
  - exists "", s. split; reflexivity.
  - destruct IH as (pre & post & -> & Hp); [lia|].
    exists (String a pre), post. split; [reflexivity|].
    simpl. destruct (Ascii.eqb_spec a c); [contradiction | lia].
Qed.

(** What [Index] and the two slices around it give at the first
    occurrence of [c]. *)
Lemma cut_at_first (pre post : string) (c : ascii) :
  Count pre c = 0 ->
  Index (pre ++ String c post) c = len pre
  /\ slice_to (pre ++ String c post) (len pre) = Ret pre
  /\ slice_from (pre ++ String c post) (len pre + 1) = Ret post.
Proof.
  intros H. split; [|split].
  - unfold Index. rewrite IndexFrom_first by assumption. lia.
  - apply slice_to_app.
  - replace (pre ++ String c post) with ((pre ++ String c "") ++ post)
      by (rewrite app_assoc; reflexivity).
    replace (len pre + 1) with (len (pre ++ String c ""))
      by (rewrite len_app, len_String; unfold len; simpl; lia).
    apply slice_from_app.
Qed.

Lemma Index_absent (s : string) (c : ascii) :
  Count s c = 0 -> Index s c = -1.
Proof. apply IndexFrom_absent. Qed.

End StringFacts.

(** ** The single-group-version probe *)

Section Probe.
Variable gv : GroupVersion.

Lemma exactPass_find (kinds : list GroupVersionKind) :
  exactPass gv kinds
  = find (fun k => String.eqb (gvk_Group k) (gv_Group gv)
                   && String.eqb (gvk_Version k) (gv_Version gv)) kinds.
Proof.
  induction kinds as [|k kinds IH]; simpl; [reflexivity|].
  now rewrite IH.
Qed.

Lemma groupPass_find (kinds : list GroupVersionKind) :
  groupPass gv kinds
  = option_map (fun k => GroupVersion_WithKind gv (gvk_Kind k))
      (find (fun k => String.eqb (gvk_Group k) (gv_Group gv)) kinds).
Proof.
  induction kinds as [|k kinds IH]; simpl; [reflexivity|].
  destruct (String.eqb (gvk_Group k) (gv_Group gv)); [reflexivity | exact IH].
Qed.

Lemma exactPass_sound (kinds : list GroupVersionKind) (t : GroupVersionKind) :
  exactPass gv kinds = Some t ->
  In t kinds /\ gvk_Group t = gv_Group gv /\ gvk_Version t = gv_Version gv.
Proof.
  rewrite exactPass_find. intros H. apply find_some in H as [Hin Hb].
  apply andb_true_iff in Hb as [Hg Hv].
  apply String.eqb_eq in Hg, Hv. auto.
Qed.

Lemma groupPass_sound (kinds : list GroupVersionKind) (t : GroupVersionKind) :
  groupPass gv kinds = Some t ->
  gvk_Group t = gv_Group gv /\ gvk_Version t = gv_Version gv
  /\ exists k, In k kinds /\ gvk_Kind k = gvk_Kind t.
Proof.
  rewrite groupPass_find.
  destruct (find _ kinds) as [k|] eqn:F; simpl; [|discriminate].
  intros [= <-]. apply find_some in F as [Hin _].
  simpl. repeat split. now exists k.
Qed.

End Probe.

(** C2. [gv.KindForGroupVersionKinds(kinds)] is the probe of the
    specification: the first element of [kinds] whose group and version
    both equal [gv]'s, with ok; else [gv.WithKind] of the kind of the first
    element whose group equals [gv]'s, with ok; else the zero value, not
    ok. *)
Theorem GroupVersion_KindForGroupVersionKinds_spec
  (gv : GroupVersion) (kinds : list GroupVersionKind) :
  GroupVersion_KindForGroupVersionKinds gv kinds = spec_probe gv kinds.
Proof.
  unfold GroupVersion_KindForGroupVersionKinds, spec_probe.
  rewrite exactPass_find, groupPass_find.
  destruct (find _ kinds); [reflexivity|].
  destruct (find _ kinds); reflexivity.
Qed.

(** C10. A successful probe returns a kind in [gv]'s group, which either
    occurs in [kinds] or carries [gv]'s version, and whose kind name is
    that of some element of [kinds]. *)
Theorem GroupVersion_KindForGroupVersionKinds_ok
  (gv : GroupVersion) (kinds : list GroupVersionKind) (t : GroupVersionKind) :
  GroupVersion_KindForGroupVersionKinds gv kinds = (t, true) ->
  gvk_Group t = gv_Group gv
  /\ (In t kinds \/ gvk_Version t = gv_Version gv)
  /\ exists k, In k kinds /\ gvk_Kind k = gvk_Kind t.
Proof.
  unfold GroupVersion_KindForGroupVersionKinds.
  destruct (exactPass gv kinds) as [e|] eqn:E.
  - intros [= <-]. apply exactPass_sound in E as (Hin & Hg & Hv).
    split; [exact Hg|]. split; [now left|]. now exists e.
  - destruct (groupPass gv kinds) as [g|] eqn:G; [|discriminate].
    intros [= <-]. apply groupPass_sound in G as (Hg & Hv & Hk).
    split; [exact Hg|]. split; [now right | exact Hk].
Qed.

Lemma GroupVersion_KindForGroupVersionKinds_ok_witness :
  gvk_Group (mkGroupVersionKind "g1" "v3" "K") = gv_Group (mkGroupVersion "g1" "v3")
  /\ (In (mkGroupVersionKind "g1" "v3" "K")
         [mkGroupVersionKind "g0" "v3" "J"; mkGroupVersionKind "g1" "v1" "K"]
      \/ gvk_Version (mkGroupVersionKind "g1" "v3" "K")
         = gv_Version (mkGroupVersion "g1" "v3"))
  /\ exists k,
      In k [mkGroupVersionKind "g0" "v3" "J"; mkGroupVersionKind "g1" "v1" "K"]
      /\ gvk_Kind k = gvk_Kind (mkGroupVersionKind "g1" "v3" "K").
Proof.
  apply (GroupVersion_KindForGroupVersionKinds_ok
           (mkGroupVersion "g1" "v3")
           [mkGroupVersionKind "g0" "v3" "J"; mkGroupVersionKind "g1" "v1" "K"]).
  reflexivity.
Defined.

(** ** Resolution over a preference list *)

Lemma collect_loop (kinds : list GroupVersionKind) (gvs : GroupVersions)
  (acc : list GroupVersionKind) :
  fold_left
    (fun targets gv =>
       let '(target, ok) := GroupVersion_KindForGroupVersionKinds gv kinds in
       if negb ok then targets else (targets ++ [target])%list)
    gvs acc
  = (acc ++ spec_collected gvs kinds)%list.
Proof.
  revert acc. induction gvs as [|gv gvs IH]; intros acc; simpl.
  - now rewrite List.app_nil_r.
  - rewrite IH. unfold spec_collected. simpl.
    destruct (GroupVersion_KindForGroupVersionKinds gv kinds) as [t [|]]; simpl.
    + now rewrite <- List.app_assoc.
    + reflexivity.
Qed.

Lemma collectTargets_spec (gvs : GroupVersions) (kinds : list GroupVersionKind) :
  collectTargets gvs kinds = spec_collected gvs kinds.
Proof. unfold collectTargets. now rewrite collect_loop. Qed.

Lemma GroupVersionKind_eqb_eq (a b : GroupVersionKind) :
  GroupVersionKind_eqb a b = true <-> a = b.
Proof.
  unfold GroupVersionKind_eqb. rewrite !andb_true_iff, !String.eqb_eq.
  destruct a, b; simpl. split.
  - intros [[-> ->] ->]. reflexivity.
  - intros [= -> -> ->]. auto.
Qed.

Lemma spec_present_In (kinds : list GroupVersionKind) (t : GroupVersionKind) :
  spec_present kinds t = true <-> In t kinds.
Proof.
  unfold spec_present.
  destruct (in_dec GroupVersionKind_eq_dec t kinds); split; auto; discriminate.
Qed.

Lemma scanKinds_present (gvk : GroupVersionKind) (kinds : list GroupVersionKind) :
  scanKinds gvk kinds = if spec_present kinds gvk then Some gvk else None.
Proof.
  induction kinds as [|k kinds IH]; [reflexivity|].
  cbn [scanKinds].
  destruct (GroupVersionKind_eqb k gvk) eqn:E.
  - apply GroupVersionKind_eqb_eq in E. subst k.
    rewrite (proj2 (spec_present_In (gvk :: kinds) gvk)); [reflexivity | now left].
  - rewrite IH.
    destruct (spec_present kinds gvk) eqn:P.
    + apply spec_present_In in P.
      rewrite (proj2 (spec_present_In (k :: kinds) gvk)); [reflexivity | now right].
    + destruct (spec_present (k :: kinds) gvk) eqn:P'; [|reflexivity].
      apply spec_present_In in P'. destruct P' as [->|Hin].
      * rewrite (proj2 (GroupVersionKind_eqb_eq gvk gvk) eq_refl) in E. discriminate.
      * apply spec_present_In in Hin. congruence.
Qed.

Lemma scanTargets_find (kinds targets : list GroupVersionKind) :
  scanTargets kinds targets = find (spec_present kinds) targets.
Proof.
  induction targets as [|t targets IH]; simpl; [reflexivity|].
  rewrite scanKinds_present.
  destruct (spec_present kinds t); [reflexivity | exact IH].
Qed.

(** C1. [gvs.KindForGroupVersionKinds(kinds)] never panics and returns
    what the specification describes: with the successful probe results
    collected in preference order, the only one if there is exactly one;
    if there are several, the first of them that occurs in [kinds], or the
    first collected when none occurs; ok in both cases; and the zero value,
    not ok, if nothing was collected. *)
Theorem GroupVersions_KindForGroupVersionKinds_spec
  (gvs : GroupVersions) (kinds : list GroupVersionKind) :
  GroupVersions_KindForGroupVersionKinds gvs kinds
  = Ret (spec_resolve gvs kinds).
Proof.
  unfold GroupVersions_KindForGroupVersionKinds, spec_resolve, bestMatch.
  rewrite collectTargets_spec, scanTargets_find.
  destruct (spec_collected gvs kinds) as [|t [|t' ts]]; try reflexivity.
  replace (Z.of_nat (Datatypes.length (t :: t' :: ts)) =? 1) with false
    by (symmetry; apply Z.eqb_neq; simpl Datatypes.length; lia).
  replace (Z.of_nat (Datatypes.length (t :: t' :: ts)) >? 1) with true
    by (symmetry; apply Z.gtb_lt; simpl Datatypes.length; lia).
  destruct (find (spec_present kinds) (t :: t' :: ts)) as [k|]; cbn [Go.bind].
  - reflexivity.
  - unfold at_index.
    replace ((0 <=? 0) && (0 <? Z.of_nat (Datatypes.length (t :: t' :: ts))))
      with true
      by (symmetry; apply andb_true_iff; split;
          [reflexivity | apply Z.ltb_lt; simpl Datatypes.length; lia]).
    reflexivity.
Qed.

(** ** Parsing a group-version string *)

Section ParseGroupVersionFacts.
Import Strings StringFacts.

Lemma Count_slash_literal : Count "/" slash = 1.
Proof. reflexivity. Qed.

Lemma ParseGroupVersion_no_slash (s : string) :
  Count s slash = 0 ->
  ParseGroupVersion s = Ret (mkGroupVersion "" s, None).
Proof.
  intros H. unfold ParseGroupVersion.
  destruct (len s =? 0) eqn:L; simpl.
  - apply Z.eqb_eq, len_zero in L. now subst.
  - destruct (String.eqb_spec s "/") as [->|_]; [discriminate H|].
    now rewrite H.
Qed.

Lemma ParseGroupVersion_one_slash (g v : string) :
  Count g slash = 0 -> Count v slash = 0 ->
  ParseGroupVersion (g ++ String slash v) = Ret (mkGroupVersion g v, None).
Proof.
  intros Hg Hv. unfold ParseGroupVersion.
  assert (L : (len (g ++ String slash v) =? 0) = false).
  { apply Z.eqb_neq. rewrite len_app, len_String.
    pose proof (len_nonneg g). pose proof (len_nonneg v). lia. }
  rewrite L. simpl orb.
  destruct (String.eqb_spec (g ++ String slash v) "/") as [E|_].
  - destruct g as [|a g]; simpl in E.
    + injection E as ->. reflexivity.
    + injection E as -> E. destruct g; discriminate E.
  - rewrite Count_app, Count_String_same, Hg, Hv. simpl.
    destruct (cut_at_first g v slash Hg) as (-> & -> & ->).
    reflexivity.
Qed.

Lemma ParseGroupVersion_many_slashes (s : string) :
  2 <= Count s slash ->
  ParseGroupVersion s = Ret (zeroGroupVersion, Some (MalformedIdentity s)).
Proof.
  intros H. unfold ParseGroupVersion.
  destruct (len s =? 0) eqn:L; simpl.
  - apply Z.eqb_eq, len_zero in L. subst. simpl in H. lia.
  - destruct (String.eqb_spec s "/") as [->|_].
    + rewrite Count_slash_literal in H. lia.
    + destruct (Count s slash) as [|[p|p|]|p]; try reflexivity; lia.
Qed.

Lemma one_slash_split (s : string) :
  Count s slash = 1 ->
  exists g v, s = g ++ String slash v /\ Count g slash = 0 /\ Count v slash = 0.
Proof.
  intros H. destruct (Count_pos_split s slash) as (g & v & -> & Hg); [lia|].
  exists g, v. split; [reflexivity|]. split; [exact Hg|].
  rewrite Count_app, Count_String_same, Hg in H. lia.
Qed.

Lemma GroupVersion_String_nonempty_group (a : ascii) (g v : string) :
  GroupVersion_String (mkGroupVersion (String a g) v)
  = String a g ++ String slash v.
Proof.
  unfold GroupVersion_String. simpl gv_Group. rewrite len_String.
  replace (1 + len g >? 0) with true
    by (symmetry; apply Z.gtb_lt; pose proof (len_nonneg g); lia).
  reflexivity.
Qed.

Lemma ParseGroupVersion_String (g v : string) :
  Count g slash = 0 -> Count v slash = 0 ->
  ParseGroupVersion (GroupVersion_String (mkGroupVersion g v))
  = Ret (mkGroupVersion g v, None).
Proof.
  intros Hg Hv. destruct g as [|a g].
  - now apply ParseGroupVersion_no_slash.
  - rewrite GroupVersion_String_nonempty_group.
    now apply ParseGroupVersion_one_slash.
Qed.

End ParseGroupVersionFacts.

(** C3. [ParseGroupVersion]: no ['/'] gives an empty group and the whole
    string as version; exactly one ['/'] gives prefix and suffix, either
    possibly empty; two or more give the MalformedIdentity error; the
    inputs [""] and ["/"] give the empty GroupVersion without error; an
    error is returned only for two or more ['/'], and the function never
    panics. *)
Theorem ParseGroupVersion_cases (s : string) :
  (Strings.Count s slash = 0 ->
   ParseGroupVersion s = Ret (mkGroupVersion "" s, None))
  /\ (Strings.Count s slash = 1 ->
      exists g v, s = g ++ "/" ++ v
                  /\ ParseGroupVersion s = Ret (mkGroupVersion g v, None))
  /\ (2 <= Strings.Count s slash ->
      ParseGroupVersion s = Ret (zeroGroupVersion, Some (MalformedIdentity s)))
  /\ ParseGroupVersion "" = Ret (zeroGroupVersion, None)
  /\ ParseGroupVersion "/" = Ret (zeroGroupVersion, None)
  /\ (forall gv e, ParseGroupVersion s = Ret (gv, Some e) ->
                   2 <= Strings.Count s slash)
  /\ ParseGroupVersion s <> Panic.
Proof.
  assert (One : Strings.Count s slash = 1 ->
                exists g v, s = g ++ "/" ++ v
                  /\ ParseGroupVersion s = Ret (mkGroupVersion g v, None)).
  { intros H. destruct (one_slash_split s H) as (g & v & -> & Hg & Hv).
    exists g, v. split; [reflexivity|].
    now apply ParseGroupVersion_one_slash. }
  pose proof (StringFacts.Count_nonneg s slash) as Hn.
  repeat split.
  - apply ParseGroupVersion_no_slash.
  - exact One.
  - apply ParseGroupVersion_many_slashes.
  - intros gv e H.
    destruct (Z.eq_dec (Strings.Count s slash) 0) as [Z0|NZ0].
    { rewrite (ParseGroupVersion_no_slash s Z0) in H. discriminate H. }
    destruct (Z.eq_dec (Strings.Count s slash) 1) as [Z1|NZ1].
    { destruct (One Z1) as (g & v & _ & E). rewrite E in H. discriminate H. }
    lia.
  - destruct (Z.eq_dec (Strings.Count s slash) 0) as [Z0|NZ0].
    { rewrite (ParseGroupVersion_no_slash s Z0). discriminate. }
    destruct (Z.eq_dec (Strings.Count s slash) 1) as [Z1|NZ1].
    { destruct (One Z1) as (g & v & _ & E). rewrite E. discriminate. }
    rewrite ParseGroupVersion_many_slashes by lia. discriminate.
Qed.

Lemma ParseGroupVersion_cases_witness :
  ParseGroupVersion "v1" = Ret (mkGroupVersion "" "v1", None)
  /\ (exists g v, "apps/v1" = g ++ "/" ++ v
                  /\ ParseGroupVersion "apps/v1" = Ret (mkGroupVersion g v, None))
  /\ ParseGroupVersion "a/b/c"
     = Ret (zeroGroupVersion, Some (MalformedIdentity "a/b/c")).
Proof.
  split; [|split].
  - apply (proj1 (ParseGroupVersion_cases "v1")). reflexivity.
  - apply (proj1 (proj2 (ParseGroupVersion_cases "apps/v1"))). reflexivity.
  - apply (proj1 (proj2 (proj2 (ParseGroupVersion_cases "a/b/c")))).
    vm_compute. discriminate.
Defined.

(** C6. Rendering then parsing gives the GroupVersion back: for a
    non-empty group and a version, both without ['/']; and for an empty
    group the rendering is the version itself, which parses to the empty
    group and that version. *)
Theorem GroupVersion_String_roundtrip :
  (forall g v : string,
      g <> "" ->
      Strings.Count g slash = 0 -> Strings.Count v slash = 0 ->
      ParseGroupVersion (GroupVersion_String (mkGroupVersion g v))
      = Ret (mkGroupVersion g v, None))
  /\ (forall v : string,
         Strings.Count v slash = 0 ->
         GroupVersion_String (mkGroupVersion "" v) = v
         /\ ParseGroupVersion v = Ret (mkGroupVersion "" v, None)).
Proof.
  split.
  - intros g v _ Hg Hv. now apply ParseGroupVersion_String.
  - intros v Hv. split; [reflexivity|].
    now apply ParseGroupVersion_no_slash.
Qed.

Lemma GroupVersion_String_roundtrip_witness :
  ParseGroupVersion (GroupVersion_String (mkGroupVersion "apps" "v1"))
  = Ret (mkGroupVersion "apps" "v1", None)
  /\ GroupVersion_String (mkGroupVersion "" "v1") = "v1"
  /\ ParseGroupVersion "v1" = Ret (mkGroupVersion "" "v1", None).
Proof.
  split.
  - apply (proj1 GroupVersion_String_roundtrip); [discriminate | reflexivity | reflexivity].
  - apply (proj2 GroupVersion_String_roundtrip). reflexivity.
Defined.

(** C9. The serialization-tag pair round-trips: for a kind whose group and
    version hold no ['/'], [FromAPIVersionAndKind] applied to the pair that
    [ToAPIVersionAndKind] returns gives the kind back; the empty kind maps
    to the pair of empty strings, and back. *)
Theorem APIVersionAndKind_roundtrip :
  (forall gvk : GroupVersionKind,
      Strings.Count (gvk_Group gvk) slash = 0 ->
      Strings.Count (gvk_Version gvk) slash = 0 ->
      FromAPIVersionAndKind (fst (ToAPIVersionAndKind gvk))
                            (snd (ToAPIVersionAndKind gvk))
      = Ret gvk)
  /\ ToAPIVersionAndKind zeroGroupVersionKind = ("", "")
  /\ FromAPIVersionAndKind "" "" = Ret zeroGroupVersionKind.
Proof.
  split; [|split; reflexivity].
  intros [g v k] Hg Hv. simpl in Hg, Hv.
  unfold ToAPIVersionAndKind.
  destruct (GroupVersionKind_Empty (mkGroupVersionKind g v k)) eqn:E.
  - unfold GroupVersionKind_Empty in E. simpl in E.
    apply andb_true_iff in E as [E Ek]. apply andb_true_iff in E as [Eg Ev].
    apply Z.eqb_eq, StringFacts.len_zero in Eg, Ev, Ek. subst. reflexivity.
  - cbn [fst snd GroupVersionKind_GroupVersion gvk_Group gvk_Version gvk_Kind].
    unfold FromAPIVersionAndKind.
    change (GroupVersionKind_GroupVersion (mkGroupVersionKind g v k))
      with (mkGroupVersion g v).
    rewrite (ParseGroupVersion_String g v Hg Hv). reflexivity.
Qed.

Lemma APIVersionAndKind_roundtrip_witness :
  FromAPIVersionAndKind
    (fst (ToAPIVersionAndKind (mkGroupVersionKind "apps" "v1" "Deployment")))
    (snd (ToAPIVersionAndKind (mkGroupVersionKind "apps" "v1" "Deployment")))
  = Ret (mkGroupVersionKind "apps" "v1" "Deployment").
Proof.
  apply (proj1 APIVersionAndKind_roundtrip); reflexivity.
Defined.

(** ** Identifiers *)

Section IdentifierFacts.
Import Strings StringFacts.

Lemma render_loop (gvs : GroupVersions) (acc : list string) :
  fold_left (fun acc gv => (acc ++ [GroupVersion_String gv])%list) gvs acc
  = (acc ++ map GroupVersion_String gvs)%list.
Proof.
  revert acc. induction gvs as [|gv gvs IH]; intros acc; simpl.
  - now rewrite List.app_nil_r.
  - rewrite IH, <- List.app_assoc. reflexivity.
Qed.

Lemma concat_absorb (sep a x : string) (r : list string) :
  String.concat sep ((a ++ sep ++ x) :: r)
  = a ++ sep ++ String.concat sep (x :: r).
Proof.
  destruct r as [|y r]; simpl; [reflexivity|].
  now rewrite !app_assoc.
Qed.

Lemma join_loop (sep : string) (rest : list string) (b : string) :
  fold_left (fun b s => b ++ sep ++ s) rest b = String.concat sep (b :: rest).
Proof.
  revert b. induction rest as [|x rest IH]; intros b; [reflexivity|].
  cbn [fold_left]. rewrite IH, concat_absorb. reflexivity.
Qed.

Lemma Join_concat (elems : list string) (sep : string) :
  Join elems sep = String.concat sep elems.
Proof.
  destruct elems as [|e [|x rest]]; try reflexivity.
  unfold Join. apply join_loop.
Qed.

End IdentifierFacts.

(** C7. [gvs.Identifier()] is ['['], the [String()] renderings of the
    elements in their order joined by [','], then [']']; on
    [[{g1,v1},{"",v2}]] it is ["[g1/v1,v2]"]. *)
Theorem GroupVersions_Identifier_spec :
  (forall gvs : GroupVersions,
      GroupVersions_Identifier gvs = spec_Identifier gvs)
  /\ GroupVersions_Identifier [mkGroupVersion "g1" "v1"; mkGroupVersion "" "v2"]
     = "[g1/v1,v2]".
Proof.
  split; [|reflexivity].
  intros gvs. unfold GroupVersions_Identifier, spec_Identifier.
  now rewrite render_loop, Join_concat.
Qed.

(** ** Identifiers as keys *)

Section KeyFacts.
Import Strings StringFacts.

Lemma app_inv_tail (a b c : string) : a ++ c = b ++ c -> a = b.
Proof.
  revert b. induction a as [|x a IH]; intros [|y b] H; simpl in H.
  - reflexivity.
  - apply (f_equal String.length) in H. simpl in H.
    rewrite length_app in H. lia.
  - apply (f_equal String.length) in H. simpl in H.
    rewrite length_app in H. lia.
  - injection H as -> H. f_equal. now apply IH.
Qed.

(** Cutting at the last occurrence of [c] is unambiguous. *)
Lemma split_last_unique (c : ascii) (a b x y : string) :
  Count x c = 0 -> Count y c = 0 ->
  a ++ String c x = b ++ String c y -> a = b /\ x = y.
Proof.
  intros Hx Hy. revert b.
  induction a as [|d a IH]; intros [|e b] H; simpl in H.
  - injection H as ->. auto.
  - injection H as <- ->.
    rewrite Count_app, Count_String_same in Hx.
    pose proof (Count_nonneg b c). pose proof (Count_nonneg y c). lia.
  - injection H as -> <-.
    rewrite Count_app, Count_String_same in Hy.
    pose proof (Count_nonneg a c). pose proof (Count_nonneg x c). lia.
  - injection H as -> H. destruct (IH b H) as [-> ->]. auto.
Qed.

(** Cutting at the first occurrence of [c] is unambiguous. *)
Lemma split_first_unique (c : ascii) (x y a b : string) :
  Count x c = 0 -> Count y c = 0 ->
  x ++ String c a = y ++ String c b -> x = y /\ a = b.
Proof.
  revert y. induction x as [|d x IH]; intros [|e y] Hx Hy H; simpl in H.
  - injection H as ->. auto.
  - injection H as <- _. rewrite Count_String_same in Hy.
    pose proof (Count_nonneg y c). lia.
  - injection H as -> _. rewrite Count_String_same in Hx.
    pose proof (Count_nonneg x c). lia.
  - injection H as -> H. simpl in Hx, Hy.
    destruct (Ascii.eqb e c).
    + pose proof (Count_nonneg x c). lia.
    + destruct (IH y Hx Hy H) as [-> ->]. auto.
Qed.

Lemma GroupVersion_String_inj (gv1 gv2 : GroupVersion) :
  Count (gv_Version gv1) slash = 0 -> Count (gv_Version gv2) slash = 0 ->
  GroupVersion_String gv1 = GroupVersion_String gv2 -> gv1 = gv2.
Proof.
  destruct gv1 as [g1 v1], gv2 as [g2 v2]. simpl. intros H1 H2 E.
  destruct g1 as [|a1 g1], g2 as [|a2 g2];
    rewrite ?GroupVersion_String_nonempty_group in E.
  - unfold GroupVersion_String in E. simpl in E. now subst.
  - change (GroupVersion_String (mkGroupVersion "" v1)) with v1 in E.
    subst v1. rewrite Count_app, Count_String_same in H1.
    pose proof (Count_nonneg (String a2 g2) slash).
    pose proof (Count_nonneg v2 slash). lia.
  - change (GroupVersion_String (mkGroupVersion "" v2)) with v2 in E.
    subst v2. rewrite Count_app, Count_String_same in H2.
    pose proof (Count_nonneg (String a1 g1) slash).
    pose proof (Count_nonneg v1 slash). lia.
  - destruct (split_last_unique slash _ _ _ _ H1 H2 E) as [-> ->].
    reflexivity.
Qed.

Lemma keyable_field (gv : GroupVersion) :
  keyable gv -> field (GroupVersion_String gv).
Proof.
  destruct gv as [g v]. unfold keyable, GroupVersion_Empty. simpl.
  intros (He & Hg & Hv & _). destruct g as [|a g].
  - unfold GroupVersion_String. simpl. split; [exact Hv|].
    intros ->. discriminate He.
  - rewrite GroupVersion_String_nonempty_group. split; [|discriminate].
    rewrite Count_app, Hg. simpl. rewrite Hv. reflexivity.
Qed.

Lemma concat_comma_cons (x y : string) (l : list string) :
  String.concat "," (x :: y :: l)
  = x ++ String comma (String.concat "," (y :: l)).
Proof. reflexivity. Qed.

Lemma field_not_joined (x y r : string) :
  field x -> x <> y ++ String comma r.
Proof.
  intros [Hx _] ->. rewrite Count_app, Count_String_same in Hx.
  pose proof (Count_nonneg y comma). pose proof (Count_nonneg r comma). lia.
Qed.

Lemma concat_comma_nonempty (x : string) (l : list string) :
  field x -> String.concat "," (x :: l) <> "".
Proof.
  intros [_ Hn]. destruct l as [|y l].
  - exact Hn.
  - rewrite concat_comma_cons. destruct x; [contradiction | discriminate].
Qed.

Lemma concat_comma_inj (l1 l2 : list string) :
  Forall field l1 -> Forall field l2 ->
  String.concat "," l1 = String.concat "," l2 -> l1 = l2.
Proof.
  intros F1. revert l2.
  induction F1 as [|x l1 Fx F1 IH]; intros l2 F2 E.
  - destruct F2 as [|y l2 Fy F2]; [reflexivity|].
    exfalso. symmetry in E. revert E. now apply concat_comma_nonempty.
  - destruct F2 as [|y l2 Fy F2].
    + exfalso. revert E. now apply concat_comma_nonempty.
    + destruct l1 as [|x' l1], l2 as [|y' l2].
      * simpl in E. now subst.
      * exfalso. rewrite concat_comma_cons in E.
        revert E. now apply field_not_joined.
      * exfalso. rewrite concat_comma_cons in E. symmetry in E.
        revert E. now apply field_not_joined.
      * rewrite !concat_comma_cons in E.
        destruct (split_first_unique comma _ _ _ _ (proj1 Fx) (proj1 Fy) E)
          as [-> E'].
        f_equal. now apply IH.
Qed.

Lemma render_inj (s1 s2 : GroupVersions) :
  Forall keyable s1 -> Forall keyable s2 ->
  map GroupVersion_String s1 = map GroupVersion_String s2 -> s1 = s2.
Proof.
  intros F1. revert s2.
  induction F1 as [|gv1 s1 K1 F1 IH]; intros s2 F2 E;
    destruct F2 as [|gv2 s2 K2 F2]; try discriminate E; [reflexivity|].
  simpl in E. injection E as E1 E2. f_equal.
  - apply GroupVersion_String_inj; [apply K1 | apply K2 | exact E1].
  - now apply IH.
Qed.

Lemma spec_Identifier_inj (s1 s2 : GroupVersions) :
  Forall keyable s1 -> Forall keyable s2 ->
  spec_Identifier s1 = spec_Identifier s2 -> s1 = s2.
Proof.
  intros F1 F2 E. unfold spec_Identifier in E. simpl in E.
  injection E as E. apply app_inv_tail in E.
  apply render_inj; try assumption.
  apply concat_comma_inj; try assumption.
  - apply Forall_map. eapply Forall_impl; [|exact F1]. apply keyable_field.
  - apply Forall_map. eapply Forall_impl; [|exact F2]. apply keyable_field.
Qed.

End KeyFacts.

(** C4, as the code has it.  [Identifier] is a key on group-versions whose
    version holds no ['/']: distinct values have distinct identifiers.  On
    sequences it is a key when every element is [keyable]: not empty, no
    [','] in group or version, no ['/'] in the version. *)
Theorem Identifier_injective :
  (forall gv1 gv2 : GroupVersion,
      Strings.Count (gv_Version gv1) slash = 0 ->
      Strings.Count (gv_Version gv2) slash = 0 ->
      gv1 <> gv2 ->
      GroupVersion_Identifier gv1 <> GroupVersion_Identifier gv2)
  /\ (forall s1 s2 : GroupVersions,
         Forall keyable s1 -> Forall keyable s2 ->
         s1 <> s2 ->
         GroupVersions_Identifier s1 <> GroupVersions_Identifier s2).
Proof.
  split.
  - intros gv1 gv2 H1 H2 Hne E. apply Hne.
    now apply GroupVersion_String_inj.
  - intros s1 s2 F1 F2 Hne E. apply Hne.
    unfold GroupVersions_Identifier in E.
    rewrite !render_loop, !Join_concat in E.
    now apply spec_Identifier_inj.
Qed.

Lemma Identifier_injective_witness :
  GroupVersion_Identifier (mkGroupVersion "apps" "v1")
  <> GroupVersion_Identifier (mkGroupVersion "" "v1")
  /\ GroupVersions_Identifier [mkGroupVersion "apps" "v1"]
     <> GroupVersions_Identifier [mkGroupVersion "apps" "v1"; mkGroupVersion "" "v2"].
Proof.
  split.
  - apply (proj1 Identifier_injective); [reflexivity | reflexivity | discriminate].
  - apply (proj2 Identifier_injective); [| | discriminate];
      repeat constructor; discriminate.
Defined.

(** C4, as stated, fails: a ['/'] in a version, an empty element, or a
    [','] in a field make two distinct values share an identifier. *)
Lemma Identifier_collisions :
  (mkGroupVersion "" "a/b" <> mkGroupVersion "a" "b"
   /\ GroupVersion_Identifier (mkGroupVersion "" "a/b")
      = GroupVersion_Identifier (mkGroupVersion "a" "b"))
  /\ (([] : GroupVersions) <> [zeroGroupVersion]
      /\ GroupVersions_Identifier [] = GroupVersions_Identifier [zeroGroupVersion])
  /\ ([mkGroupVersion "" "a,b"] <> [mkGroupVersion "" "a"; mkGroupVersion "" "b"]
      /\ GroupVersions_Identifier [mkGroupVersion "" "a,b"]
         = GroupVersions_Identifier [mkGroupVersion "" "a"; mkGroupVersion "" "b"]).
Proof.
  repeat split; discriminate.
Qed.

(** ** The ambiguous-name parser *)

Section ParseArgFacts.
Import Strings StringFacts.

Lemma two_dots_split (arg : string) :
  2 <= Count arg dot ->
  exists p0 p1 p2,
    arg = p0 ++ String dot (p1 ++ String dot p2)
    /\ Count p0 dot = 0 /\ Count p1 dot = 0.
Proof.
  intros H.
  destruct (Count_pos_split arg dot) as (p0 & rest & -> & H0); [lia|].
  rewrite Count_app, Count_String_same, H0 in H.
  destruct (Count_pos_split rest dot) as (p1 & p2 & -> & H1); [lia|].
  now exists p0, p1, p2.
Qed.

Lemma SplitN_three (p0 p1 p2 : string) :
  Count p0 dot = 0 -> Count p1 dot = 0 ->
  SplitN (p0 ++ String dot (p1 ++ String dot p2)) dot 3 = Ret [p0; p1; p2].
Proof.
  intros H0 H1. unfold SplitN.
  change (3 =? 0) with false. change (3 <? 0) with false. cbv beta iota zeta.
  replace (3 >? len (p0 ++ String dot (p1 ++ String dot p2)) + 1) with false.
  2:{ symmetry. rewrite Z.gtb_ltb. apply Z.ltb_ge.
      rewrite len_app, len_String, len_app, len_String.
      pose proof (len_nonneg p0). pose proof (len_nonneg p1).
      pose proof (len_nonneg p2). lia. }
  change (Z.to_nat (3 - 1)) with 2%nat. cbn [splitLoop].
  destruct (cut_at_first p0 (p1 ++ String dot p2) dot H0) as (-> & -> & ->).
  replace (len p0 <? 0) with false
    by (symmetry; apply Z.ltb_ge, len_nonneg).
  cbn [Go.bind].
  destruct (cut_at_first p1 p2 dot H1) as (-> & -> & ->).
  replace (len p1 <? 0) with false
    by (symmetry; apply Z.ltb_ge, len_nonneg).
  reflexivity.
Qed.

Lemma ParseGroupResource_no_dot (arg : string) :
  Count arg dot = 0 -> ParseGroupResource arg = Ret (mkGroupResource "" arg).
Proof.
  intros H. unfold ParseGroupResource. now rewrite (Index_absent arg dot H).
Qed.

Lemma ParseGroupResource_dot (r g : string) :
  Count r dot = 0 ->
  ParseGroupResource (r ++ String dot g) = Ret (mkGroupResource g r).
Proof.
  intros H. unfold ParseGroupResource.
  destruct (cut_at_first r g dot H) as (-> & -> & ->). cbv zeta.
  replace (len r >=? 0) with true
    by (symmetry; apply Z.geb_le, len_nonneg).
  reflexivity.
Qed.

Lemma ParseGroupKind_no_dot (arg : string) :
  Count arg dot = 0 -> ParseGroupKind arg = Ret (mkGroupKind "" arg).
Proof.
  intros H. unfold ParseGroupKind. now rewrite (Index_absent arg dot H).
Qed.

Lemma ParseGroupKind_dot (k g : string) :
  Count k dot = 0 ->
  ParseGroupKind (k ++ String dot g) = Ret (mkGroupKind g k).
Proof.
  intros H. unfold ParseGroupKind.
  destruct (cut_at_first k g dot H) as (-> & -> & ->). cbv zeta.
  replace (len k =? -1) with false
    by (symmetry; apply Z.eqb_neq; pose proof (len_nonneg k); lia).
  reflexivity.
Qed.

(** The three shapes of an argument and what both parsers return on each. *)
Lemma ParseArg_no_dot (arg : string) :
  Count arg dot = 0 ->
  ParseResourceArg arg = Ret (None, mkGroupResource "" arg)
  /\ ParseKindArg arg = Ret (None, mkGroupKind "" arg).
Proof.
  intros H. unfold ParseResourceArg, ParseKindArg.
  rewrite H, ParseGroupResource_no_dot, ParseGroupKind_no_dot by assumption.
  split; reflexivity.
Qed.

Lemma ParseArg_one_dot (r g : string) :
  Count r dot = 0 -> Count g dot = 0 ->
  ParseResourceArg (r ++ String dot g) = Ret (None, mkGroupResource g r)
  /\ ParseKindArg (r ++ String dot g) = Ret (None, mkGroupKind g r).
Proof.
  intros Hr Hg. unfold ParseResourceArg, ParseKindArg.
  rewrite Count_app, Count_String_same, Hr, Hg.
  rewrite ParseGroupResource_dot, ParseGroupKind_dot by assumption.
  split; reflexivity.
Qed.

Lemma ParseArg_two_dots (p0 p1 p2 : string) :
  Count p0 dot = 0 -> Count p1 dot = 0 ->
  ParseResourceArg (p0 ++ String dot (p1 ++ String dot p2))
  = Ret (Some (mkGroupVersionResource p2 p1 p0),
         mkGroupResource (p1 ++ String dot p2) p0)
  /\ ParseKindArg (p0 ++ String dot (p1 ++ String dot p2))
     = Ret (Some (mkGroupVersionKind p2 p1 p0),
            mkGroupKind (p1 ++ String dot p2) p0).
Proof.
  intros H0 H1. unfold ParseResourceArg, ParseKindArg.
  replace (Count (p0 ++ String dot (p1 ++ String dot p2)) dot >=? 2) with true.
  2:{ symmetry. apply Z.geb_le.
      rewrite Count_app, Count_String_same, Count_app, Count_String_same.
      pose proof (Count_nonneg p2 dot). lia. }
  rewrite SplitN_three, ParseGroupResource_dot, ParseGroupKind_dot
    by assumption.
  split; reflexivity.
Qed.

Lemma arg_shapes (arg : string) :
  Count arg dot = 0
  \/ (exists r g, arg = r ++ String dot g /\ Count r dot = 0 /\ Count g dot = 0)
  \/ (exists p0 p1 p2, arg = p0 ++ String dot (p1 ++ String dot p2)
                       /\ Count p0 dot = 0 /\ Count p1 dot = 0).
Proof.
  pose proof (Count_nonneg arg dot) as Hn.
  destruct (Z.eq_dec (Count arg dot) 0) as [E0|N0]; [now left|].
  destruct (Z.eq_dec (Count arg dot) 1) as [E1|N1].
  - right. left.
    destruct (Count_pos_split arg dot) as (r & g & -> & Hr); [lia|].
    exists r, g. split; [reflexivity|]. split; [exact Hr|].
    rewrite Count_app, Count_String_same, Hr in E1. lia.
  - right. right. apply two_dots_split. lia.
Qed.

End ParseArgFacts.

(** C5. [ParseResourceArg] always returns the coarse form cut at the first
    ['.'] (the whole string as local name when there is no dot), and a
    precise form exactly when the argument holds two or more dots, in which
    case the argument is cut at its first two dots only: resource, version,
    and the remainder verbatim as group.  [ParseKindArg] returns the same
    fields under the kind types. *)
Theorem ParseResourceArg_shape (arg : string) :
  exists gvr gr,
    ParseResourceArg arg = Ret (gvr, gr)
    /\ ((Strings.Count arg dot = 0 /\ gr = mkGroupResource "" arg)
        \/ (exists r g, arg = r ++ "." ++ g
                        /\ Strings.Count r dot = 0
                        /\ gr = mkGroupResource g r))
    /\ (gvr <> None <-> 2 <= Strings.Count arg dot)
    /\ (forall x, gvr = Some x ->
          exists p0 p1 p2,
            arg = p0 ++ "." ++ p1 ++ "." ++ p2
            /\ Strings.Count p0 dot = 0 /\ Strings.Count p1 dot = 0
            /\ x = mkGroupVersionResource p2 p1 p0)
    /\ ParseKindArg arg = Ret (option_map asKind gvr, asGroupKind gr).
Proof.
  destruct (arg_shapes arg)
    as [H0 | [(r & g & -> & Hr & Hg) | (p0 & p1 & p2 & -> & H0 & H1)]].
  - destruct (ParseArg_no_dot arg H0) as [ER EK].
    exists None, (mkGroupResource "" arg).
    split; [exact ER|]. split; [now left|]. split; [|split].
    + rewrite H0. split; [congruence | lia].
    + discriminate.
    + exact EK.
  - destruct (ParseArg_one_dot r g Hr Hg) as [ER EK].
    exists None, (mkGroupResource g r).
    split; [exact ER|]. split; [right; now exists r, g|]. split; [|split].
    + rewrite StringFacts.Count_app, StringFacts.Count_String_same, Hr, Hg.
      split; [congruence | lia].
    + discriminate.
    + exact EK.
  - destruct (ParseArg_two_dots p0 p1 p2 H0 H1) as [ER EK].
    exists (Some (mkGroupVersionResource p2 p1 p0)),
           (mkGroupResource (p1 ++ String dot p2) p0).
    split; [exact ER|].
    split; [right; now exists p0, (p1 ++ String dot p2)|]. split; [|split].
    + rewrite !StringFacts.Count_app, !StringFacts.Count_String_same,
        StringFacts.Count_app, StringFacts.Count_String_same.
      pose proof (StringFacts.Count_nonneg p2 dot).
      split; [lia | discriminate].
    + intros x [= <-]. now exists p0, p1, p2.
    + exact EK.
Qed.

(** C8. [ParseResourceArg] and [ParseKindArg] return on every input, never
    panicking; a leading or trailing dot gives empty-string fields. *)
Theorem ParseArg_total :
  (forall arg : string,
      (exists gvr gr, ParseResourceArg arg = Ret (gvr, gr))
      /\ (exists gvk gk, ParseKindArg arg = Ret (gvk, gk)))
  /\ ParseResourceArg ".apps" = Ret (None, mkGroupResource "apps" "")
  /\ ParseResourceArg "pods." = Ret (None, mkGroupResource "" "pods")
  /\ ParseKindArg ".v1.apps"
     = Ret (Some (mkGroupVersionKind "apps" "v1" ""), mkGroupKind "v1.apps" "")
  /\ ParseKindArg "Pod.v1."
     = Ret (Some (mkGroupVersionKind "" "v1" "Pod"), mkGroupKind "v1." "Pod").
Proof.
  split; [|repeat split].
  intros arg.
  destruct (arg_shapes arg)
    as [H0 | [(r & g & -> & Hr & Hg) | (p0 & p1 & p2 & -> & H0 & H1)]].
  - destruct (ParseArg_no_dot arg H0) as [-> ->]. split; eauto.
  - destruct (ParseArg_one_dot r g Hr Hg) as [-> ->]. split; eauto.
  - destruct (ParseArg_two_dots p0 p1 p2 H0 H1) as [-> ->]. split; eauto.
Qed.

(** ** What [ParseGroupVersion] returns, on every input *)

Section ParseGroupVersionImage.
Import Strings StringFacts.

(** The three shapes of an input and the result on each. *)
Lemma ParseGroupVersion_image (s : string) :
  (Count s slash = 0 /\ ParseGroupVersion s = Ret (mkGroupVersion "" s, None))
  \/ (exists g v, s = g ++ String slash v
                  /\ Count g slash = 0 /\ Count v slash = 0
                  /\ ParseGroupVersion s = Ret (mkGroupVersion g v, None))
  \/ (2 <= Count s slash
      /\ ParseGroupVersion s
         = Ret (zeroGroupVersion, Some (MalformedIdentity s))).
Proof.
  pose proof (Count_nonneg s slash) as Hn.
  destruct (Z.eq_dec (Count s slash) 0) as [E0|N0].
  { left. split; [exact E0 | now apply ParseGroupVersion_no_slash]. }
  destruct (Z.eq_dec (Count s slash) 1) as [E1|N1].
  { right. left. destruct (one_slash_split s E1) as (g & v & -> & Hg & Hv).
    exists g, v. repeat split; try assumption.
    now apply ParseGroupVersion_one_slash. }
  right. right. split; [lia|]. apply ParseGroupVersion_many_slashes. lia.
Qed.

Lemma GroupVersion_String_empty_group (v : string) :
  GroupVersion_String (mkGroupVersion "" v) = v.
Proof. reflexivity. Qed.

Lemma ToAPIVersionAndKind_pair (gvk : GroupVersionKind) :
  ToAPIVersionAndKind gvk
  = (GroupVersion_String (GroupVersionKind_GroupVersion gvk), gvk_Kind gvk).
Proof.
  unfold ToAPIVersionAndKind.
  destruct (GroupVersionKind_Empty gvk) eqn:E; [|reflexivity].
  destruct gvk as [g v k]. unfold GroupVersionKind_Empty in E. simpl in E.
  apply andb_true_iff in E as [E Ek]. apply andb_true_iff in E as [Eg Ev].
  apply Z.eqb_eq, len_zero in Eg, Ev, Ek. subst. reflexivity.
Qed.

Lemma FromAPIVersionAndKind_image (a k : string) :
  (Count a slash = 0
   /\ FromAPIVersionAndKind a k = Ret (mkGroupVersionKind "" a k))
  \/ (exists g v, a = g ++ String slash v
                  /\ Count g slash = 0 /\ Count v slash = 0
                  /\ FromAPIVersionAndKind a k = Ret (mkGroupVersionKind g v k))
  \/ (2 <= Count a slash
      /\ FromAPIVersionAndKind a k = Ret (mkGroupVersionKind "" "" k)).
Proof.
  unfold FromAPIVersionAndKind.
  destruct (ParseGroupVersion_image a)
    as [[H0 ->] | [(g & v & E & Hg & Hv & ->) | [H2 ->]]].
  - left. split; [exact H0 | reflexivity].
  - right. left. exists g, v. repeat split; assumption.
  - right. right. split; [exact H2 | reflexivity].
Qed.

End ParseGroupVersionImage.

(** X1. On every input [ParseGroupVersion] returns (it never panics), and
    neither field of the GroupVersion it returns holds a ['/'], with or
    without an error. *)
Theorem ParseGroupVersion_slash_free (s : string) :
  exists gv e,
    ParseGroupVersion s = Ret (gv, e)
    /\ Strings.Count (gv_Group gv) slash = 0
    /\ Strings.Count (gv_Version gv) slash = 0.
Proof.
  destruct (ParseGroupVersion_image s)
    as [[H0 E] | [(g & v & _ & Hg & Hv & E) | [_ E]]]; rewrite E.
  - exists (mkGroupVersion "" s), None. auto.
  - exists (mkGroupVersion g v), None. auto.
  - exists zeroGroupVersion, (Some (MalformedIdentity s)). auto.
Qed.

(** X2. Whatever [ParseGroupVersion] returns without error parses back to
    itself from its own rendering. *)
Theorem ParseGroupVersion_String_stable (s : string) (gv : GroupVersion) :
  ParseGroupVersion s = Ret (gv, None) ->
  ParseGroupVersion (GroupVersion_String gv) = Ret (gv, None).
Proof.
  intros H.
  destruct (ParseGroupVersion_image s)
    as [[H0 E] | [(g & v & _ & Hg & Hv & E) | [_ E]]];
    rewrite E in H; try discriminate H; injection H as <-.
  - now apply ParseGroupVersion_String.
  - now apply ParseGroupVersion_String.
Qed.

Lemma ParseGroupVersion_String_stable_witness :
  ParseGroupVersion (GroupVersion_String (mkGroupVersion "" "v1"))
  = Ret (mkGroupVersion "" "v1", None).
Proof.
  apply (ParseGroupVersion_String_stable "/v1"). reflexivity.
Defined.



(** ** The string pair and its carrier *)

(** X4. The empty-kind guard of [ToAPIVersionAndKind] changes nothing: on
    every kind the pair is the rendering of its GroupVersion and its Kind;
    and the pair of empty strings is returned for the empty kind only. *)
Theorem ToAPIVersionAndKind_unguarded (gvk : GroupVersionKind) :
  ToAPIVersionAndKind gvk
  = (GroupVersion_String (GroupVersionKind_GroupVersion gvk), gvk_Kind gvk)
  /\ (ToAPIVersionAndKind gvk = ("", "") <-> gvk = zeroGroupVersionKind).
Proof.
  split; [apply ToAPIVersionAndKind_pair|].
  split; [|intros ->; reflexivity].
  rewrite ToAPIVersionAndKind_pair. destruct gvk as [g v k].
  unfold GroupVersionKind_GroupVersion. simpl. intros [= E ->].
  destruct g as [|a g].
  - rewrite GroupVersion_String_empty_group in E. now subst.
  - rewrite GroupVersion_String_nonempty_group in E. discriminate E.
Qed.

(** X5. [FromAPIVersionAndKind] returns on every pair of strings and keeps
    the kind string as it is; the group and version it returns hold no
    ['/']; an api-version with two or more ['/'] is not reported but gives
    an empty group and an empty version. *)
Theorem FromAPIVersionAndKind_total (apiVersion kind : string) :
  exists gvk,
    FromAPIVersionAndKind apiVersion kind = Ret gvk
    /\ gvk_Kind gvk = kind
    /\ Strings.Count (gvk_Group gvk) slash = 0
    /\ Strings.Count (gvk_Version gvk) slash = 0
    /\ (2 <= Strings.Count apiVersion slash ->
        gvk = mkGroupVersionKind "" "" kind).
Proof.
  destruct (FromAPIVersionAndKind_image apiVersion kind)
    as [[H0 E] | [(g & v & Ea & Hg & Hv & E) | [H2 E]]]; rewrite E.
  - exists (mkGroupVersionKind "" apiVersion kind).
    repeat split; auto. intros H. lia.
  - exists (mkGroupVersionKind g v kind).
    repeat split; auto. intros H. subst apiVersion.
    rewrite StringFacts.Count_app, StringFacts.Count_String_same, Hg, Hv in H.
    lia.
  - exists (mkGroupVersionKind "" "" kind). repeat split; auto.
Qed.

(** X6. Every kind [FromAPIVersionAndKind] returns survives the way back:
    [ToAPIVersionAndKind] followed by [FromAPIVersionAndKind] gives it
    again, whatever the strings it was first read from. *)
Theorem FromAPIVersionAndKind_stable
  (apiVersion kind : string) (gvk : GroupVersionKind) :
  FromAPIVersionAndKind apiVersion kind = Ret gvk ->
  FromAPIVersionAndKind (fst (ToAPIVersionAndKind gvk))
                        (snd (ToAPIVersionAndKind gvk))
  = Ret gvk.
Proof.
  intros H. rewrite ToAPIVersionAndKind_pair. cbn [fst snd].
  assert (S : Strings.Count (gvk_Group gvk) slash = 0
              /\ Strings.Count (gvk_Version gvk) slash = 0).
  { destruct (FromAPIVersionAndKind_image apiVersion kind)
      as [[H0 E] | [(g & v & Ea & Hg & Hv & E) | [H2 E]]];
      rewrite E in H; injection H as <-; auto. }
  destruct S as [Sg Sv]. destruct gvk as [g v k]. simpl in Sg, Sv.
  unfold FromAPIVersionAndKind.
  change (GroupVersionKind_GroupVersion (mkGroupVersionKind g v k))
    with (mkGroupVersion g v).
  rewrite (ParseGroupVersion_String g v Sg Sv). reflexivity.
Qed.

Lemma FromAPIVersionAndKind_stable_witness :
  FromAPIVersionAndKind
    (fst (ToAPIVersionAndKind (mkGroupVersionKind "" "" "Pod")))
    (snd (ToAPIVersionAndKind (mkGroupVersionKind "" "" "Pod")))
  = Ret (mkGroupVersionKind "" "" "Pod").
Proof.
  apply (FromAPIVersionAndKind_stable "a/b/c" "Pod"). reflexivity.
Defined.

(** X7. Writing back into a [TypeMeta] the kind read from it: the kind
    read afterwards is the same, the [Kind] field is untouched, and the
    object is unchanged when its [APIVersion] holds no ['/']; an
    [APIVersion] with two or more ['/'] is cleared. *)
Theorem TypeMeta_write_back (obj : TypeMeta) (gvk : GroupVersionKind) :
  TypeMeta_GroupVersionKind obj = Ret gvk ->
  TypeMeta_GroupVersionKind (TypeMeta_SetGroupVersionKind obj gvk) = Ret gvk
  /\ Kind (TypeMeta_SetGroupVersionKind obj gvk) = Kind obj
  /\ (Strings.Count (APIVersion obj) slash = 0 ->
      TypeMeta_SetGroupVersionKind obj gvk = obj)
  /\ (2 <= Strings.Count (APIVersion obj) slash ->
      APIVersion (TypeMeta_SetGroupVersionKind obj gvk) = "").
Proof.
  destruct obj as [a k]. unfold TypeMeta_GroupVersionKind. simpl.
  intros H. split.
  - pose proof (FromAPIVersionAndKind_stable a k gvk H) as S.
    unfold TypeMeta_SetGroupVersionKind.
    destruct (ToAPIVersionAndKind gvk) as [a' k']. exact S.
  - unfold TypeMeta_SetGroupVersionKind. rewrite ToAPIVersionAndKind_pair.
    cbn [Kind APIVersion].
    destruct (FromAPIVersionAndKind_image a k)
      as [[H0 E] | [(g & v & Ea & Hg & Hv & E) | [H2 E]]];
      rewrite E in H; injection H as <-.
    + repeat split; auto. intros H. lia.
    + repeat split.
      * intros H. subst a.
        rewrite StringFacts.Count_app, StringFacts.Count_String_same in H.
        pose proof (StringFacts.Count_nonneg g slash).
        pose proof (StringFacts.Count_nonneg v slash). lia.
      * intros H. subst a.
        rewrite StringFacts.Count_app, StringFacts.Count_String_same, Hg, Hv in H.
        lia.
    + repeat split; auto. intros H. lia.
Qed.

Lemma TypeMeta_write_back_witness :
  TypeMeta_GroupVersionKind
    (TypeMeta_SetGroupVersionKind (mkTypeMeta "/v1" "Pod")
       (mkGroupVersionKind "" "v1" "Pod"))
  = Ret (mkGroupVersionKind "" "v1" "Pod").
Proof.
  apply (TypeMeta_write_back (mkTypeMeta "/v1" "Pod")). reflexivity.
Defined.

(** ** Coarse names: rendering and parsing *)

Section CoarseNames.
Import Strings StringFacts.

Lemma GroupResource_String_group (r : string) (a : ascii) (g : string) :
  GroupResource_String (mkGroupResource (String a g) r)
  = r ++ String dot (String a g).
Proof.
  unfold GroupResource_String. simpl gr_Group. rewrite len_String.
  replace (1 + len g =? 0) with false
    by (symmetry; apply Z.eqb_neq; pose proof (len_nonneg g); lia).
  reflexivity.
Qed.

Lemma GroupKind_String_group (k : string) (a : ascii) (g : string) :
  GroupKind_String (mkGroupKind (String a g) k)
  = k ++ String dot (String a g).
Proof.
  unfold GroupKind_String. simpl gk_Group. rewrite len_String.
  replace (1 + len g =? 0) with false
    by (symmetry; apply Z.eqb_neq; pose proof (len_nonneg g); lia).
  reflexivity.
Qed.



End CoarseNames.

(** X8. A GroupResource whose resource name holds no ['.'] parses back
    from its rendering, whatever its group; likewise a GroupKind whose
    kind name holds no ['.']. *)
Theorem ParseGroup_of_String :
  (forall gr : GroupResource,
      Strings.Count (gr_Resource gr) dot = 0 ->
      ParseGroupResource (GroupResource_String gr) = Ret gr)
  /\ (forall gk : GroupKind,
         Strings.Count (gk_Kind gk) dot = 0 ->
         ParseGroupKind (GroupKind_String gk) = Ret gk).
Proof.
  split.
  - intros [g r] H. simpl in H. destruct g as [|a g].
    + now apply ParseGroupResource_no_dot.
    + rewrite GroupResource_String_group. now apply ParseGroupResource_dot.
  - intros [g k] H. simpl in H. destruct g as [|a g].
    + now apply ParseGroupKind_no_dot.
    + rewrite GroupKind_String_group. now apply ParseGroupKind_dot.
Qed.

Lemma ParseGroup_of_String_witness :
  ParseGroupResource (GroupResource_String (mkGroupResource "v1.apps" "pods"))
  = Ret (mkGroupResource "v1.apps" "pods")
  /\ ParseGroupKind (GroupKind_String (mkGroupKind "" "Pod"))
     = Ret (mkGroupKind "" "Pod").
Proof.
  split.
  - apply (proj1 ParseGroup_of_String). reflexivity.
  - apply (proj2 ParseGroup_of_String). reflexivity.
Defined.


(** X10. When [ParseResourceArg] produces the precise form, the argument
    is resource, version and group joined by two dots; the coarse form has
    the same resource and the group "version.group"; it renders to the
    argument; and the two readings never agree on the group. *)
Theorem ParseResourceArg_readings
  (arg : string) (gvr : GroupVersionResource) (gr : GroupResource) :
  ParseResourceArg arg = Ret (Some gvr, gr) ->
  arg = gvr_Resource gvr ++ "." ++ gvr_Version gvr ++ "." ++ gvr_Group gvr
  /\ gr = mkGroupResource (gvr_Version gvr ++ "." ++ gvr_Group gvr)
                          (gvr_Resource gvr)
  /\ GroupResource_String gr = arg
  /\ GroupVersionResource_GroupResource gvr <> gr.
Proof.
  intros H.
  destruct (arg_shapes arg)
    as [H0 | [(r & g & -> & Hr & Hg) | (p0 & p1 & p2 & -> & H0 & H1)]].
  - rewrite (proj1 (ParseArg_no_dot arg H0)) in H. discriminate H.
  - rewrite (proj1 (ParseArg_one_dot r g Hr Hg)) in H. discriminate H.
  - rewrite (proj1 (ParseArg_two_dots p0 p1 p2 H0 H1)) in H.
    injection H as <- <-. simpl.
    split; [reflexivity|]. split; [reflexivity|]. split.
    + destruct p1 as [|a p1]; reflexivity.
    + unfold GroupVersionResource_GroupResource. simpl. intros [= E].
      apply (f_equal String.length) in E.
      rewrite StringFacts.length_app in E. simpl in E. lia.
Qed.

Lemma ParseResourceArg_readings_witness :
  "pods.v1.apps" = "pods" ++ "." ++ "v1" ++ "." ++ "apps"
  /\ mkGroupResource "v1.apps" "pods"
     = mkGroupResource ("v1" ++ "." ++ "apps") "pods"
  /\ GroupResource_String (mkGroupResource "v1.apps" "pods") = "pods.v1.apps"
  /\ mkGroupResource "apps" "pods" <> mkGroupResource "v1.apps" "pods".
Proof.
  apply (ParseResourceArg_readings "pods.v1.apps"
           (mkGroupVersionResource "apps" "v1" "pods")
           (mkGroupResource "v1.apps" "pods")).
  reflexivity.
Defined.

(** ** More on kind resolution *)

Section ResolverFacts.

Lemma exactPass_complete (gv : GroupVersion) (kinds : list GroupVersionKind)
  (k : GroupVersionKind) :
  In k kinds -> GroupVersionKind_GroupVersion k = gv ->
  exists t, exactPass gv kinds = Some t.
Proof.
  intros Hin <-. rewrite exactPass_find.
  destruct (find _ kinds) as [t|] eqn:F; [now exists t|].
  apply (find_none _ _ F) in Hin. simpl in Hin.
  rewrite !String.eqb_refl in Hin. discriminate Hin.
Qed.

Lemma groupPass_complete (gv : GroupVersion) (kinds : list GroupVersionKind)
  (k : GroupVersionKind) :
  In k kinds -> gvk_Group k = gv_Group gv ->
  exists t, groupPass gv kinds = Some t.
Proof.
  intros Hin Hg. rewrite groupPass_find.
  destruct (find _ kinds) as [t|] eqn:F; [simpl; eauto|].
  apply (find_none _ _ F) in Hin. simpl in Hin.
  rewrite Hg, String.eqb_refl in Hin. discriminate Hin.
Qed.

Lemma probe_GroupVersion (gv : GroupVersion) (kinds : list GroupVersionKind)
  (t : GroupVersionKind) :
  GroupVersion_KindForGroupVersionKinds gv kinds = (t, true) ->
  GroupVersionKind_GroupVersion t = gv.
Proof.
  unfold GroupVersion_KindForGroupVersionKinds, GroupVersionKind_GroupVersion.
  destruct gv as [g v].
  destruct (exactPass _ kinds) as [e|] eqn:E.
  - intros [= <-]. apply exactPass_sound in E as (_ & -> & ->). reflexivity.
  - destruct (groupPass _ kinds) as [x|] eqn:G; [|discriminate].
    intros [= <-]. apply groupPass_sound in G as (-> & -> & _). reflexivity.
Qed.

Lemma probe_exact (gv : GroupVersion) (kinds : list GroupVersionKind)
  (k : GroupVersionKind) :
  In k kinds -> GroupVersionKind_GroupVersion k = gv ->
  exists t, GroupVersion_KindForGroupVersionKinds gv kinds = (t, true)
            /\ In t kinds.
Proof.
  intros Hin Hk. destruct (exactPass_complete gv kinds k Hin Hk) as [t E].
  exists t. unfold GroupVersion_KindForGroupVersionKinds. rewrite E.
  split; [reflexivity|]. now apply exactPass_sound in E.
Qed.

Lemma in_collected (gvs : GroupVersions) (kinds : list GroupVersionKind)
  (t : GroupVersionKind) :
  In t (spec_collected gvs kinds)
  <-> exists gv, In gv gvs
                 /\ GroupVersion_KindForGroupVersionKinds gv kinds = (t, true).
Proof.
  unfold spec_collected. rewrite in_flat_map. split.
  - intros (gv & Hin & Ht). exists gv. split; [exact Hin|].
    destruct (GroupVersion_KindForGroupVersionKinds gv kinds) as [x [|]];
      simpl in Ht; [|contradiction].
    destruct Ht as [->|[]]. reflexivity.
  - intros (gv & Hin & E). exists gv. split; [exact Hin|].
    rewrite E. simpl. now left.
Qed.

(** The resolver runs to the result the specification describes. *)
Lemma resolve_run (gvs : GroupVersions) (kinds : list GroupVersionKind) :
  GroupVersions_KindForGroupVersionKinds gvs kinds
  = Ret (spec_resolve gvs kinds).
Proof.
  unfold GroupVersions_KindForGroupVersionKinds, spec_resolve, bestMatch.
  rewrite collectTargets_spec, scanTargets_find.
  destruct (spec_collected gvs kinds) as [|t [|t' ts]]; try reflexivity.
  set (l := t :: t' :: ts).
  assert (L : Z.of_nat (List.length l) > 1)
    by (subst l; simpl List.length; lia).
  replace (Z.of_nat (List.length l) =? 1) with false
    by (symmetry; apply Z.eqb_neq; lia).
  replace (Z.of_nat (List.length l) >? 1) with true
    by (symmetry; apply Z.gtb_lt; lia).
  destruct (find (spec_present kinds) l) as [k|]; [reflexivity|].
  reflexivity.
Qed.

Lemma spec_resolve_in_collected (gvs : GroupVersions)
  (kinds : list GroupVersionKind) (t : GroupVersionKind) :
  spec_resolve gvs kinds = (t, true) -> In t (spec_collected gvs kinds).
Proof.
  unfold spec_resolve.
  destruct (spec_collected gvs kinds) as [|a [|b l]].
  - discriminate.
  - intros [= <-]. now left.
  - destruct (find _ (a :: b :: l)) as [x|] eqn:F; intros [= <-].
    + now apply find_some in F.
    + now left.
Qed.

Lemma spec_resolve_ok (gvs : GroupVersions) (kinds : list GroupVersionKind) :
  snd (spec_resolve gvs kinds) = true <-> spec_collected gvs kinds <> [].
Proof.
  unfold spec_resolve.
  destruct (spec_collected gvs kinds) as [|a [|b l]]; simpl;
    split; try discriminate; try reflexivity; congruence.
Qed.

(** When a collected result occurs in [kinds], so does the result. *)
Lemma spec_resolve_literal (gvs : GroupVersions) (kinds : list GroupVersionKind)
  (x : GroupVersionKind) :
  In x (spec_collected gvs kinds) -> In x kinds ->
  In (fst (spec_resolve gvs kinds)) kinds.
Proof.
  unfold spec_resolve. intros Hc Hk.
  destruct (spec_collected gvs kinds) as [|a [|b l]].
  - destruct Hc.
  - destruct Hc as [->|[]]. exact Hk.
  - destruct (find _ (a :: b :: l)) as [y|] eqn:F; simpl.
    + apply find_some in F as [_ P]. now apply spec_present_In in P.
    + apply (find_none _ _ F) in Hc.
      apply spec_present_In in Hk. congruence.
Qed.

End ResolverFacts.

(** X11. The single-group-version probe succeeds exactly when some
    candidate is in the group of [gv], whatever the versions. *)
Theorem probe_ok_iff (gv : GroupVersion) (kinds : list GroupVersionKind) :
  snd (GroupVersion_KindForGroupVersionKinds gv kinds) = true
  <-> exists k, In k kinds /\ gvk_Group k = gv_Group gv.
Proof.
  unfold GroupVersion_KindForGroupVersionKinds. split.
  - destruct (exactPass gv kinds) as [e|] eqn:E.
    + intros _. apply exactPass_sound in E as (Hin & Hg & _). now exists e.
    + destruct (groupPass gv kinds) as [x|] eqn:G; [|discriminate].
      intros _. rewrite groupPass_find in G.
      destruct (find _ kinds) as [k|] eqn:F; [|discriminate G].
      apply find_some in F as [Hin Hb]. apply String.eqb_eq in Hb.
      now exists k.
  - intros (k & Hin & Hg).
    destruct (exactPass gv kinds); [reflexivity|].
    destruct (groupPass_complete gv kinds k Hin Hg) as [t ->]. reflexivity.
Qed.

(** X12. A successful probe returns a kind whose group and version are
    exactly [gv]'s, and it returns an element of [kinds] exactly when
    [kinds] offers [gv]'s group and version. *)
Theorem probe_returns_preferred
  (gv : GroupVersion) (kinds : list GroupVersionKind) (t : GroupVersionKind) :
  GroupVersion_KindForGroupVersionKinds gv kinds = (t, true) ->
  GroupVersionKind_GroupVersion t = gv
  /\ (In t kinds
      <-> exists k, In k kinds /\ GroupVersionKind_GroupVersion k = gv).
Proof.
  intros H. pose proof (probe_GroupVersion gv kinds t H) as Ht.
  split; [exact Ht|]. split.
  - intros Hin. now exists t.
  - intros (k & Hin & Hk).
    destruct (probe_exact gv kinds k Hin Hk) as (t' & E & Hin').
    rewrite E in H. now injection H as <-.
Qed.

Lemma probe_returns_preferred_witness :
  GroupVersionKind_GroupVersion (mkGroupVersionKind "g1" "v3" "K")
  = mkGroupVersion "g1" "v3"
  /\ (In (mkGroupVersionKind "g1" "v3" "K") [mkGroupVersionKind "g1" "v1" "K"]
      <-> exists k, In k [mkGroupVersionKind "g1" "v1" "K"]
                    /\ GroupVersionKind_GroupVersion k = mkGroupVersion "g1" "v3").
Proof.
  apply (probe_returns_preferred (mkGroupVersion "g1" "v3")
           [mkGroupVersionKind "g1" "v1" "K"]).
  reflexivity.
Defined.

(** X13. The resolver over a preference list returns on every input; it
    reports ok exactly when some candidate is in the group of some
    preferred group-version; when it does not, the kind returned is the
    zero value. *)
Theorem resolve_ok_iff (gvs : GroupVersions) (kinds : list GroupVersionKind) :
  exists t ok,
    GroupVersions_KindForGroupVersionKinds gvs kinds = Ret (t, ok)
    /\ (ok = true
        <-> exists gv k, In gv gvs /\ In k kinds /\ gvk_Group k = gv_Group gv)
    /\ (ok = false -> t = zeroGroupVersionKind).
Proof.
  rewrite resolve_run.
  exists (fst (spec_resolve gvs kinds)), (snd (spec_resolve gvs kinds)).
  split; [now destruct (spec_resolve gvs kinds)|]. split.
  - rewrite spec_resolve_ok. split.
    + intros Hne. destruct (spec_collected gvs kinds) as [|x l] eqn:C;
        [contradiction|].
      assert (Hx : In x (spec_collected gvs kinds)) by (rewrite C; now left).
      apply in_collected in Hx as (gv & Hin & E).
      assert (O : snd (GroupVersion_KindForGroupVersionKinds gv kinds) = true)
        by now rewrite E.
      apply probe_ok_iff in O as (k & Hk & Hg). now exists gv, k.
    + intros (gv & k & Hin & Hk & Hg) C.
      assert (O : snd (GroupVersion_KindForGroupVersionKinds gv kinds) = true)
        by (apply probe_ok_iff; now exists k).
      destruct (GroupVersion_KindForGroupVersionKinds gv kinds) as [x o] eqn:E.
      simpl in O. subst o.
      assert (Hx : In x (spec_collected gvs kinds))
        by (apply in_collected; now exists gv).
      rewrite C in Hx. destruct Hx.
  - unfold spec_resolve.
    destruct (spec_collected gvs kinds) as [|a [|b l]]; simpl;
      try discriminate. reflexivity.
Qed.

(** X14. What the resolver returns with ok is the probe result of one of
    the preferred group-versions: its group and version are those of an
    element of the preference list, and its kind name is that of a
    candidate. *)
Theorem resolve_from_preference
  (gvs : GroupVersions) (kinds : list GroupVersionKind) (t : GroupVersionKind) :
  GroupVersions_KindForGroupVersionKinds gvs kinds = Ret (t, true) ->
  (exists gv, In gv gvs
              /\ GroupVersion_KindForGroupVersionKinds gv kinds = (t, true))
  /\ In (GroupVersionKind_GroupVersion t) gvs
  /\ exists k, In k kinds /\ gvk_Kind k = gvk_Kind t.
Proof.
  rewrite resolve_run. intros [= H].
  apply spec_resolve_in_collected, in_collected in H as (gv & Hin & E).
  split; [now exists gv|]. split.
  - now rewrite (probe_GroupVersion gv kinds t E).
  - unfold GroupVersion_KindForGroupVersionKinds in E.
    destruct (exactPass gv kinds) as [e|] eqn:X.
    + injection E as <-. apply exactPass_sound in X as (Hk & _). now exists e.
    + destruct (groupPass gv kinds) as [x|] eqn:G; [|discriminate E].
      injection E as <-. now apply groupPass_sound in G as (_ & _ & Hk).
Qed.

Lemma resolve_from_preference_witness :
  In (GroupVersionKind_GroupVersion (mkGroupVersionKind "g1" "v2" "K"))
     [mkGroupVersion "g1" "v2"; mkGroupVersion "g1" "v1"].
Proof.
  apply (resolve_from_preference
           [mkGroupVersion "g1" "v2"; mkGroupVersion "g1" "v1"]
           [mkGroupVersionKind "g1" "v1" "K"; mkGroupVersionKind "g1" "v2" "K"]).
  reflexivity.
Defined.

(** X15. The first preference wins when the candidates offer it: if
    [kinds] holds a kind with the group and version of the head of the
    preference list, the resolver returns, with ok, an element of [kinds]
    with exactly that group and version, whatever follows in the list. *)
Theorem resolve_first_preference_wins
  (gv : GroupVersion) (rest : GroupVersions)
  (kinds : list GroupVersionKind) (k : GroupVersionKind) :
  In k kinds -> GroupVersionKind_GroupVersion k = gv ->
  exists t,
    GroupVersions_KindForGroupVersionKinds (gv :: rest) kinds = Ret (t, true)
    /\ In t kinds
    /\ GroupVersionKind_GroupVersion t = gv.
Proof.
  intros Hin Hk. rewrite resolve_run.
  destruct (probe_exact gv kinds k Hin Hk) as (t & E & Ht).
  exists t. split.
  - unfold spec_resolve, spec_collected. cbn [flat_map]. rewrite E.
    cbn [fst snd app].
    destruct (flat_map _ rest) as [|b l]; [reflexivity|].
    cbn [find]. now rewrite (proj2 (spec_present_In kinds t) Ht).
  - split; [exact Ht | now apply (probe_GroupVersion gv kinds)].
Qed.

Lemma resolve_first_preference_wins_witness :
  exists t,
    GroupVersions_KindForGroupVersionKinds
      [mkGroupVersion "g1" "v2"; mkGroupVersion "g1" "v1"]
      [mkGroupVersionKind "g1" "v1" "K"; mkGroupVersionKind "g1" "v2" "K"]
    = Ret (t, true)
    /\ In t [mkGroupVersionKind "g1" "v1" "K"; mkGroupVersionKind "g1" "v2" "K"]
    /\ GroupVersionKind_GroupVersion t = mkGroupVersion "g1" "v2".
Proof.
  apply (resolve_first_preference_wins _ _ _ (mkGroupVersionKind "g1" "v2" "K")).
  - simpl. auto.
  - reflexivity.
Defined.

(** X16. A kind that is not among the candidates is returned only when no
    candidate has the group and version of any preferred group-version. *)
Theorem resolve_synthesized_only_without_literal
  (gvs : GroupVersions) (kinds : list GroupVersionKind) (t : GroupVersionKind) :
  GroupVersions_KindForGroupVersionKinds gvs kinds = Ret (t, true) ->
  ~ In t kinds ->
  forall gv k, In gv gvs -> In k kinds -> GroupVersionKind_GroupVersion k <> gv.
Proof.
  rewrite resolve_run. intros [= H] Hnot gv k Hgv Hk E.
  destruct (probe_exact gv kinds k Hk E) as (x & Ex & Hx).
  assert (Hc : In x (spec_collected gvs kinds))
    by (apply in_collected; now exists gv).
  pose proof (spec_resolve_literal gvs kinds x Hc Hx) as L.
  rewrite H in L. now apply Hnot.
Qed.

Lemma resolve_synthesized_only_without_literal_witness :
  GroupVersionKind_GroupVersion (mkGroupVersionKind "g1" "v1" "K")
  <> mkGroupVersion "g1" "v3".
Proof.
  apply (resolve_synthesized_only_without_literal
           [mkGroupVersion "g1" "v3"] [mkGroupVersionKind "g1" "v1" "K"]
           (mkGroupVersionKind "g1" "v3" "K")).
  - reflexivity.
  - simpl. intros [H|[]]. discriminate H.
  - simpl. auto.
  - simpl. auto.
Defined.

(** X17. A preferred group-version whose group no candidate is in has no
    influence: removing it from the preference list, wherever it stands,
    leaves the result unchanged. *)
Theorem resolve_ignores_unmatched
  (gvs1 gvs2 : GroupVersions) (gv : GroupVersion)
  (kinds : list GroupVersionKind) :
  (forall k, In k kinds -> gvk_Group k <> gv_Group gv) ->
  GroupVersions_KindForGroupVersionKinds (gvs1 ++ gv :: gvs2)%list kinds
  = GroupVersions_KindForGroupVersionKinds (gvs1 ++ gvs2)%list kinds.
Proof.
  intros H. rewrite !resolve_run. f_equal.
  unfold spec_resolve, spec_collected.
  rewrite !flat_map_app. cbn [flat_map].
  destruct (GroupVersion_KindForGroupVersionKinds gv kinds) as [x o] eqn:E.
  destruct o; [|reflexivity].
  exfalso.
  assert (O : snd (GroupVersion_KindForGroupVersionKinds gv kinds) = true)
    by now rewrite E.
  apply probe_ok_iff in O as (k & Hk & Hg). now apply (H k).
Qed.

Lemma resolve_ignores_unmatched_witness :
  GroupVersions_KindForGroupVersionKinds
    ([mkGroupVersion "g1" "v3"] ++ mkGroupVersion "g2" "v1" :: [])%list
    [mkGroupVersionKind "g1" "v1" "K"]
  = GroupVersions_KindForGroupVersionKinds
      ([mkGroupVersion "g1" "v3"] ++ [])%list
      [mkGroupVersionKind "g1" "v1" "K"].
Proof.
  apply resolve_ignores_unmatched.
  simpl. intros k [<-|[]]. discriminate.
Defined.

(** ** Replacing bytes: flag-name normalization *)

Section ReplaceFacts.
Import Strings StringFacts.

Lemma slice_mid (a b c : string) :
  slice (a ++ b ++ c) (len a) (len a + len b) = Ret b.
Proof.
  unfold slice.
  assert (G : (0 <=? len a) && (len a <=? len a + len b)
              && (len a + len b <=? len (a ++ b ++ c)) = true).
  { rewrite !andb_true_iff, !Z.leb_le, !len_app.
    pose proof (len_nonneg a). pose proof (len_nonneg b).
    pose proof (len_nonneg c). lia. }
  rewrite G. f_equal.
  replace (Z.to_nat (len a)) with (String.length a) by (unfold len; lia).
  replace (Z.to_nat (len a + len b - len a)) with (String.length b)
    by (unfold len; lia).
  rewrite substring_skip. apply substring_prefix.
Qed.

Lemma replaceBytes_absent (s : string) (old : ascii) (new : string) :
  Count s old = 0 -> replaceBytes s old new = s.
Proof.
  induction s as [|c s IH]; simpl; intros H; [reflexivity|].
  pose proof (Count_nonneg s old).
  destruct (Ascii.eqb c old); [lia|]. simpl. rewrite IH by lia. reflexivity.
Qed.

Lemma replaceBytes_app (a b : string) (old : ascii) (new : string) :
  replaceBytes (a ++ b) old new
  = replaceBytes a old new ++ replaceBytes b old new.
Proof.
  induction a as [|c a IH]; simpl; [reflexivity|].
  now rewrite IH, app_assoc.
Qed.

Lemma replaceBytes_same (s : string) (c : ascii) :
  replaceBytes s c (String c "") = s.
Proof.
  induction s as [|x s IH]; simpl; [reflexivity|].
  destruct (Ascii.eqb_spec x c) as [->|_]; simpl; now rewrite IH.
Qed.

(** The loop invariant: [pre] has been consumed, [rest] holds exactly the
    [n] occurrences still to replace. *)
Lemma replaceLoop_run (old : ascii) (new : string) (n : nat) :
  forall pre rest b,
    Count rest old = Z.of_nat n ->
    replaceLoop n (pre ++ rest) old new b (len pre)
    = Ret (b ++ replaceBytes rest old new).
Proof.
  induction n as [|n IH]; intros pre rest b H; cbn [replaceLoop].
  - rewrite slice_from_app. cbn [Go.bind].
    now rewrite replaceBytes_absent by (rewrite H; reflexivity).
  - rewrite slice_from_app. cbn [Go.bind].
    destruct (Count_pos_split rest old) as (p & q & -> & Hp); [lia|].
    destruct (cut_at_first p q old Hp) as (-> & _ & _).
    change (p ++ String old q) with (p ++ String old q).
    rewrite slice_mid. cbn [Go.bind].
    replace (pre ++ p ++ String old q)
      with ((pre ++ p ++ String old "") ++ q)
      by (rewrite !app_assoc; reflexivity).
    replace (len pre + len p + 1) with (len (pre ++ p ++ String old ""))
      by (rewrite !len_app, len_String; unfold len; simpl; lia).
    rewrite IH.
    + rewrite replaceBytes_app, (replaceBytes_absent p old new Hp).
      simpl. rewrite Ascii.eqb_refl, !app_assoc. reflexivity.
    + rewrite Count_app, Count_String_same, Hp in H. lia.
Qed.

Lemma ReplaceAll_bytes (s : string) (old : ascii) (new : string) :
  ReplaceAll s old new = Ret (replaceBytes s old new).
Proof.
  unfold ReplaceAll, Replace.
  destruct (String.eqb_spec (String old "") new) as [<-|_].
  - simpl. now rewrite replaceBytes_same.
  - change (-1 =? 0) with false. change (-1 <? 0) with true.
    cbv beta iota zeta. simpl orb.
    destruct (Count s old =? 0) eqn:Z.
    + apply Z.eqb_eq in Z. now rewrite replaceBytes_absent.
    + pose proof (replaceLoop_run old new (Z.to_nat (Count s old)) "" s "") as R.
      simpl in R. apply R.
      pose proof (Count_nonneg s old). lia.
Qed.

Lemma Count_String_other (c x : ascii) (s : string) :
  c <> x -> Count (String c s) x = Count s x.
Proof.
  intros H. cbn [Count].
  destruct (Ascii.eqb_spec c x); [contradiction | reflexivity].
Qed.

Lemma hyphenate_facts (s : string) :
  Count (replaceBytes s underscore "-") underscore = 0
  /\ len (replaceBytes s underscore "-") = len s
  /\ Count (replaceBytes s underscore "-") hyphen
     = Count s hyphen + Count s underscore.
Proof.
  assert (D : hyphen <> underscore) by discriminate.
  assert (D' : underscore <> hyphen) by discriminate.
  induction s as [|c s (I1 & I2 & I3)]; [repeat split|].
  cbn [replaceBytes].
  destruct (Ascii.eqb_spec c underscore) as [->|Hne].
  - change ("-" ++ replaceBytes s underscore "-")
      with (String hyphen (replaceBytes s underscore "-")).
    rewrite !len_String, I2, (Count_String_other hyphen underscore) by exact D.
    rewrite !Count_String_same, I3, (Count_String_other underscore hyphen)
      by exact D'.
    repeat split; [exact I1 | lia].
  - change (String c "" ++ replaceBytes s underscore "-")
      with (String c (replaceBytes s underscore "-")).
    rewrite !len_String, I2, !(Count_String_other c underscore) by exact Hne.
    repeat split; [exact I1|].
    destruct (Ascii.eqb_spec c hyphen) as [->|Hh].
    + rewrite !Count_String_same, I3. lia.
    + rewrite !(Count_String_other c hyphen) by exact Hh. lia.
Qed.

End ReplaceFacts.

(** X18. [normalize] returns on every string, never panicking in the
    replacement loop, and its result is the string with every ['_'] byte
    replaced by ['-'] and every other byte kept in place. *)
Theorem normalize_bytes (s : string) :
  normalize s = Ret (replaceBytes s underscore "-").
Proof. apply ReplaceAll_bytes. Qed.

(** X19. A normalized name holds no ['_'] and has the length of the
    original; its hyphens are the hyphens and underscores of the original;
    normalizing it again changes nothing; a name without ['_'] is returned
    as it is. *)
Theorem normalize_properties (s : string) :
  exists r,
    normalize s = Ret r
    /\ Strings.Count r underscore = 0
    /\ len r = len s
    /\ Strings.Count r hyphen
       = Strings.Count s hyphen + Strings.Count s underscore
    /\ normalize r = Ret r
    /\ (Strings.Count s underscore = 0 -> r = s).
Proof.
  exists (replaceBytes s underscore "-").
  destruct (hyphenate_facts s) as (H1 & H2 & H3).
  split; [apply ReplaceAll_bytes|]. repeat split; try assumption.
  - unfold normalize. rewrite ReplaceAll_bytes.
    now rewrite replaceBytes_absent.
  - apply replaceBytes_absent.
Qed.

(** ** Renderings, emptiness and projections of the identity types *)

Section IdentityFacts.
Import Strings StringFacts.

Lemma len_eqb_zero (s : string) : (len s =? 0) = true <-> s = "".
Proof.
  rewrite Z.eqb_eq. split; [apply len_zero | intros ->; reflexivity].
Qed.

Lemma app_empty (a b : string) : a ++ b = "" -> a = "" /\ b = "".
Proof. destruct a; simpl; [auto | discriminate]. Qed.

Lemma Join_five_nosep (a b c d e : string) :
  Join [a; b; c; d; e] "" = a ++ b ++ c ++ d ++ e.
Proof.
  unfold Join. cbn [fold_left]. simpl append.
  now rewrite !app_assoc.
Qed.

End IdentityFacts.

Ltac empty_fields :=
  repeat match goal with
         | H : _ && _ = true |- _ => apply andb_true_iff in H as [? ?]
         | H : (len _ =? 0) = true |- _ => apply len_eqb_zero in H; subst
         end.

(** X20. The renderings of the three-field types always carry the slash:
    they are the GroupVersion rendering followed by the label and the
    name when the group is not empty, and that with a ['/'] in front when
    the group is empty; so they are never the empty string. *)
Theorem String_of_three_fields :
  (forall gvk : GroupVersionKind,
      GroupVersionKind_String gvk
      = (if len (gvk_Group gvk) =? 0 then "/" else "")
        ++ GroupVersion_String (GroupVersionKind_GroupVersion gvk)
        ++ ", Kind=" ++ gvk_Kind gvk
      /\ GroupVersionKind_String gvk <> "")
  /\ (forall gvr : GroupVersionResource,
         GroupVersionResource_String gvr
         = (if len (gvr_Group gvr) =? 0 then "/" else "")
           ++ GroupVersion_String (GroupVersionResource_GroupVersion gvr)
           ++ ", Resource=" ++ gvr_Resource gvr
         /\ GroupVersionResource_String gvr <> "").
Proof.
  split.
  - intros [g v k]. unfold GroupVersionKind_String, GroupVersionKind_GroupVersion.
    cbn [gvk_Group gvk_Version gvk_Kind]. split.
    + destruct g as [|a g].
      * reflexivity.
      * rewrite GroupVersion_String_nonempty_group, StringFacts.len_String.
        replace (1 + len g =? 0) with false
          by (symmetry; apply Z.eqb_neq; pose proof (StringFacts.len_nonneg g); lia).
        change ("" ++ ?x) with x.
        now rewrite StringFacts.app_assoc.
    + intros E. apply app_empty in E as [_ E]. discriminate E.
  - intros [g v r].
    unfold GroupVersionResource_String, GroupVersionResource_GroupVersion.
    cbn [gvr_Group gvr_Version gvr_Resource]. rewrite Join_five_nosep. split.
    + destruct g as [|a g].
      * reflexivity.
      * rewrite GroupVersion_String_nonempty_group, StringFacts.len_String.
        replace (1 + len g =? 0) with false
          by (symmetry; apply Z.eqb_neq; pose proof (StringFacts.len_nonneg g); lia).
        change ("" ++ ?x) with x.
        now rewrite StringFacts.app_assoc.
    + intros E. apply app_empty in E as [_ E]. discriminate E.
Qed.

(** X21. For the two-field types, [Empty()] holds exactly for the zero
    value, and exactly when the rendering is the empty string; for the
    three-field types [Empty()] holds exactly for the zero value. *)
Theorem Empty_iff_zero :
  (forall gr : GroupResource,
      (GroupResource_Empty gr = true <-> gr = mkGroupResource "" "")
      /\ (GroupResource_Empty gr = true <-> GroupResource_String gr = ""))
  /\ (forall gk : GroupKind,
         (GroupKind_Empty gk = true <-> gk = mkGroupKind "" "")
         /\ (GroupKind_Empty gk = true <-> GroupKind_String gk = ""))
  /\ (forall gv : GroupVersion,
         (GroupVersion_Empty gv = true <-> gv = zeroGroupVersion)
         /\ (GroupVersion_Empty gv = true <-> GroupVersion_String gv = ""))
  /\ (forall gvr : GroupVersionResource,
         GroupVersionResource_Empty gvr = true
         <-> gvr = mkGroupVersionResource "" "" "")
  /\ (forall gvk : GroupVersionKind,
         GroupVersionKind_Empty gvk = true <-> gvk = zeroGroupVersionKind).
Proof.
  split; [|split; [|split; [|split]]].
  - intros [g r]. unfold GroupResource_Empty. cbn [gr_Group gr_Resource].
    split; split; intros H.
    + empty_fields. reflexivity.
    + now injection H as -> ->.
    + empty_fields. reflexivity.
    + destruct g as [|a g].
      * change (GroupResource_String (mkGroupResource "" r)) with r in H.
        now subst.
      * rewrite GroupResource_String_group in H.
        apply app_empty in H as [_ H]. discriminate H.
  - intros [g k]. unfold GroupKind_Empty. cbn [gk_Group gk_Kind].
    split; split; intros H.
    + empty_fields. reflexivity.
    + now injection H as -> ->.
    + empty_fields. reflexivity.
    + destruct g as [|a g].
      * change (GroupKind_String (mkGroupKind "" k)) with k in H.
        now subst.
      * rewrite GroupKind_String_group in H.
        apply app_empty in H as [_ H]. discriminate H.
  - intros [g v]. unfold GroupVersion_Empty. cbn [gv_Group gv_Version].
    split; split; intros H.
    + empty_fields. reflexivity.
    + now injection H as -> ->.
    + empty_fields. reflexivity.
    + destruct g as [|a g].
      * rewrite GroupVersion_String_empty_group in H. now subst.
      * rewrite GroupVersion_String_nonempty_group in H. discriminate H.
  - intros [g v r]. unfold GroupVersionResource_Empty.
    cbn [gvr_Group gvr_Version gvr_Resource]. split; intros H.
    + empty_fields. reflexivity.
    + now injection H as -> -> ->.
  - intros [g v k]. unfold GroupVersionKind_Empty.
    cbn [gvk_Group gvk_Version gvk_Kind]. split; intros H.
    + empty_fields. reflexivity.
    + now injection H as -> -> ->.
Qed.
